(** * AT24MAC_EEPROM: a shallow embedding of the CircuitPython driver

    The driver [AT24MAC_EEPROM.py] presents an AT24MACx02 serial EEPROM as a
    byte store indexed like a Python sequence, and fetches the factory
    programmed EUI-48 address and serial number at construction.

    Python integers are [Z], [bytes]/[bytearray] values are [list byte],
    exceptions are an explicit error type, and the I2C bus is a store of
    device memories together with the list of bus events an operation
    issues.  Methods of the class take [self] as their first argument. *)

From Stdlib Require Import ZArith List Lia Bool QArith.
From Stdlib.Strings Require Import Byte.
Import ListNotations.
Open Scope Z_scope.

(** ** Module constants *)

Definition _EEPROM_LENGTH : Z := 256.
Definition _PAGE_SIZE : Z := 16.
(** [_WRITE_TIME = 0.005] seconds. *)
Definition _WRITE_TIME : Q := (5 # 1000)%Q.

Definition _EUI_LOCATION : list byte := [x9a].
Definition _MAC_ADDR_LENGTH : Z := 6.
Definition _SERIAL_NUMBER_LOCATION : list byte := [x80].
Definition _SERIAL_NUMBER_LENGTH : Z := 16.

(** ** Exceptions *)

(** The texts of the [ValueError]s the driver raises itself. *)
Inductive message : Type :=
| StartBeyondLimit                          (* "Start Address goes beyond memory limit" *)
| StopBeyondLimit                           (* "Stop Address goes beyond memory limit" *)
| GoBeyondLimit (data_address length : Z)   (* "Data address .. and length .. go beyond memory limit" *)
| ItemShape                                 (* "Item must be integer or slice" *)
| ByteRange.                                (* bytearray(iterable): "byte must be in range(0, 256)" *)

(** [ValueError] is what the driver raises; the others come from the
    interpreter: [OverflowError] from [int.to_bytes], [IndexError] from
    indexing an empty [bytearray], [TypeError] from [len] of an [int],
    and [NegativeCount] from [bytearray(n)] with [n < 0] (a [ValueError]
    "negative count" on CPython, a failed allocation on CircuitPython). *)
Inductive exn : Type :=
| ValueError (m : message)
| OverflowError
| IndexError
| TypeError
| NegativeCount.

Inductive result (A : Type) : Type :=
| Ok (a : A)
| Raise (e : exn).
Arguments Ok {A} a.
Arguments Raise {A} e.

(** ** The bus *)

(** The bus transport ([adafruit_bus_device.i2c_device.I2CDevice]), the
    part behind it and [time.sleep] are not part of the repository; the
    definitions of this section stand for them.

    What an operation does on the bus, in order.  [Probe] is the empty
    write [I2CDevice(i2c, address, True)] performs; [Sleep] is [time.sleep]. *)
Inductive event : Type :=
| Probe (device_address : Z)
| WriteThenReadInto (device_address : Z) (out_buffer : list byte) (in_length : nat)
| Write (device_address : Z) (buffer : list byte)
| Sleep (seconds : Q).

(** The memory behind one bus address, and the bus: bus address to memory. *)
Definition memory : Type := Z -> byte.
Definition store : Type := Z -> memory.

Definition byte_value (b : byte) : Z := Z.of_N (Byte.to_N b).

(** The word address a transaction starts at is its first byte. *)
Definition word_address (out_buffer : list byte) : Z :=
  match out_buffer with
  | a :: _ => byte_value a
  | [] => 0
  end.

(** Modelled from the spec: the part's answer to a write-then-read
    transaction (send the 1-byte address, receive [n] bytes).  A sequential
    read increments the address and rolls over at the end of the 256-byte
    array. *)
Definition sequential_read (m : memory) (a : Z) (n : nat) : list byte :=
  map (fun i => m ((a + Z.of_nat i) mod 256)) (seq 0 n).

Definition cell_set (m : memory) (a : Z) (b : byte) : memory :=
  fun x => if x =? a then b else m x.

(** Modelled from the spec: the part's page-sized write buffer, in which a
    transaction that straddles a page boundary wraps within the page.  A
    page write increments only the low four address bits: past the end of
    the 16-byte page it rolls over to the start of the same page. *)
Definition next_in_page (a : Z) : Z := 16 * (a / 16) + (a + 1) mod 16.

Fixpoint page_program (m : memory) (a : Z) (data : list byte) : memory :=
  match data with
  | [] => m
  | b :: data' => page_program (cell_set m a b) (next_in_page a) data'
  end.

(** Modelled from the spec: the part's answer to a plain write transaction,
    the 1-byte address followed by the payload bytes. *)
Definition device_write (s : store) (device_address : Z) (buffer : list byte) : store :=
  match buffer with
  | [] => s
  | a :: data =>
      fun d => if d =? device_address
               then page_program (s d) (byte_value a) data
               else s d
  end.

(** ** The monad of driver code: state, events issued, exceptions *)

#[projections(primitive)]
Record outcome (A : Type) : Type := mkOutcome {
  res : result A;
  st : store;
  evs : list event
}.
Arguments mkOutcome {A} res st evs.
Arguments res {A} o.
Arguments st {A} o.
Arguments evs {A} o.

Definition M (A : Type) : Type := store -> outcome A.

Definition ret {A} (a : A) : M A := fun s => mkOutcome (Ok a) s [].
Definition raise {A} (e : exn) : M A := fun s => mkOutcome (Raise e) s [].
Definition bind {A B} (m : M A) (f : A -> M B) : M B :=
  fun s =>
    let o := m s in
    match res o with
    | Ok a => let o' := f a (st o) in mkOutcome (res o') (st o') (evs o ++ evs o')
    | Raise e => mkOutcome (Raise e) (st o) (evs o)
    end.

Notation "x <- m ;; k" := (bind m (fun x => k))
  (at level 61, m at next level, right associativity).
Notation "m ;;; k" := (bind m (fun _ => k))
  (at level 61, right associativity).

(** ** Interpreter and library primitives the driver calls *)

(** Modelled from the spec: [I2CDevice(i2c, device_address, probe)] of the
    bus device library; the object is its address. *)
Definition I2CDevice (device_address : Z) (probe : bool) : M Z :=
  fun s => mkOutcome (Ok device_address) s
                     (if probe then [Probe device_address] else []).

(** Modelled from the spec: [device.write_then_readinto(out_buffer,
    in_buffer)] of the bus device library; returns the filled [in_buffer]. *)
Definition write_then_readinto (device : Z) (out_buffer in_buffer : list byte)
  : M (list byte) :=
  fun s =>
    mkOutcome (Ok (sequential_read (s device) (word_address out_buffer)
                                   (length in_buffer)))
              s
              [WriteThenReadInto device out_buffer (length in_buffer)].

(** Modelled from the spec: [device.write(buffer)] of the bus device
    library. *)
Definition write (device : Z) (buffer : list byte) : M unit :=
  fun s => mkOutcome (Ok tt) (device_write s device buffer) [Write device buffer].

(** Modelled from the spec: the blocking delay [time.sleep(seconds)]. *)
Definition sleep (seconds : Q) : M unit :=
  fun s => mkOutcome (Ok tt) s [Sleep seconds].

(** [bytearray(n)] *)
Definition bytearray (n : Z) : M (list byte) :=
  if n <? 0 then raise NegativeCount else ret (repeat x00 (Z.to_nat n)).

(** [n.to_bytes(1, "big")] *)
Definition to_bytes (n : Z) : M (list byte) :=
  if n <? 0 then raise OverflowError
  else match Byte.of_N (Z.to_N n) with
       | Some b => ret [b]
       | None => raise OverflowError
       end.

(** [int.from_bytes(b, "big")] *)
Definition from_bytes (b : list byte) : Z :=
  fold_left (fun acc x => acc * 256 + byte_value x) b 0.

(** [bytearray(iterable)] for an iterable of integers. *)
Fixpoint bytearray_of (l : list Z) : M (list byte) :=
  match l with
  | [] => ret []
  | v :: l' =>
      if (v <? 0) || (255 <? v) then raise (ValueError ByteRange)
      else b <- to_bytes v ;; r <- bytearray_of l' ;; ret (b ++ r)
  end.

(** [data[i:j]] for non-negative [i] and [j]. *)
Definition slice (data : list byte) (i j : Z) : list byte :=
  firstn (Z.to_nat (j - i)) (skipn (Z.to_nat i) data).

(** [data[i:]] for non-negative [i]. *)
Definition slice_from (data : list byte) (i : Z) : list byte :=
  skipn (Z.to_nat i) data.

(** [range(start, stop, step)]; a zero [step], which Python refuses, gives
    the empty list. *)
Definition range (start stop step : Z) : list Z :=
  if 0 <? step then
    map (fun k => start + step * Z.of_nat k)
        (seq 0 (Z.to_nat ((stop - start + step - 1) / step)))
  else if step <? 0 then
    map (fun k => start + step * Z.of_nat k)
        (seq 0 (Z.to_nat ((start - stop - step - 1) / (- step))))
  else [].

Definition len (data : list byte) : Z := Z.of_nat (length data).

(** ** class AT24MAC *)

Record AT24MAC : Type := mkAT24MAC {
  eeprom_device : Z;
  eui_device : Z;
  mac : list byte;
  serial_number : Z
}.

(** What [__getitem__] returns: a [bytearray], or one item of it. *)
Inductive value : Type :=
| VBytes (data_bytes : list byte)
| VInt (item : byte).

(** The key of an indexing expression: an [int], a [slice] (whose [step]
    the driver never looks at), or anything else. *)
Inductive key : Type :=
| KInt (address : Z)
| KSlice (start stop step : option Z)
| KOther.

(** The right-hand side of an item assignment: [bytes]/[bytearray], an
    [int], or an iterable of integers. *)
Inductive payload : Type :=
| PBytes (data : list byte)
| PInt (data : Z)
| PList (data : list Z).

Definition read_serial_number (self : AT24MAC) : M Z :=
  serial_number <- bytearray _SERIAL_NUMBER_LENGTH ;;
  serial_number <- write_then_readinto (eui_device self)
                     _SERIAL_NUMBER_LOCATION serial_number ;;
  ret (from_bytes serial_number).

Definition read_mac_address (self : AT24MAC) : M (list byte) :=
  mac_address <- bytearray _MAC_ADDR_LENGTH ;;
  mac_address <- write_then_readinto (eui_device self)
                   _EUI_LOCATION mac_address ;;
  ret mac_address.

(** [AT24MAC(i2c, address_pins)]; the attributes [mac] and [serial_number]
    are filled in the order of the constructor's assignments. *)
Definition __init__ (address_pins : Z) : M AT24MAC :=
  eeprom <- I2CDevice (Z.lor 0x50 address_pins) true ;;
  eui <- I2CDevice (Z.lor 0x58 address_pins) true ;;
  let self := mkAT24MAC eeprom eui [] 0 in
  m <- read_mac_address self ;;
  let self := mkAT24MAC eeprom eui m 0 in
  n <- read_serial_number self ;;
  ret (mkAT24MAC eeprom eui m n).

Definition _read (self : AT24MAC) (data_address length : Z) : M value :=
  if _EEPROM_LENGTH <? length + data_address then
    raise (ValueError (GoBeyondLimit data_address length))
  else
    data_bytes <- bytearray length ;;
    data_address <- to_bytes data_address ;;
    data_bytes <- write_then_readinto (eeprom_device self) data_address data_bytes ;;
    if 1 <? length then ret (VBytes data_bytes)
    else match data_bytes with
         | item :: _ => ret (VInt item)
         | [] => raise IndexError
         end.

(** [bytes([current_values])] *)
Definition bytes_of_item (current_values : value) : M value :=
  match current_values with
  | VInt item => ret (VBytes [item])
  | VBytes _ => raise TypeError
  end.

(** [current_values == data], [data] being [bytes] or a [bytearray]. *)
Definition value_eqb (current_values : value) (data : list byte) : bool :=
  match current_values with
  | VBytes data_bytes =>
      if list_eq_dec Byte.byte_eq_dec data_bytes data then true else false
  | VInt _ => false
  end.

Definition _does_data_match (self : AT24MAC) (data_address : Z) (data : list byte)
  : M bool :=
  current_values <- _read self data_address (len data) ;;
  current_values <- (if len data =? 1 then bytes_of_item current_values
                     else ret current_values) ;;
  ret (value_eqb current_values data).

Definition _write_page (self : AT24MAC) (data_address : Z) (data : list byte)
  : M unit :=
  matches <- _does_data_match self data_address data ;;
  if negb matches then
    data_address <- to_bytes data_address ;;
    let data_message := data_address ++ data in
    write (eeprom_device self) data_message ;;;
    sleep _WRITE_TIME
  else ret tt.

(** The body of [for i in range(...)] in [_write], threading
    [current_address]. *)
Fixpoint _write_loop (self : AT24MAC) (data : list byte) (indices : list Z)
                     (current_address : Z) : M Z :=
  match indices with
  | [] => ret current_address
  | i :: indices' =>
      let this_page := slice data i (i + _PAGE_SIZE) in
      _write_page self current_address this_page ;;;
      _write_loop self data indices' (current_address + _PAGE_SIZE)
  end.

(** The first statement of [_write]: an [int] in 0..255 becomes one byte,
    another [int] is left alone (and [len] of it then raises), an iterable
    goes through [bytearray]. *)
Definition coerce (data : payload) : M (list byte) :=
  match data with
  | PBytes data => ret data
  | PInt data =>
      if (0 <=? data) && (data <=? 255) then to_bytes data
      else raise TypeError
  | PList data => bytearray_of data
  end.

(** [int(len(data) / _PAGE_SIZE)]: the quotient is exact in floating point
    (a division by 16), so the truncation is the integer quotient. *)
Definition _write (self : AT24MAC) (data_address : Z) (data : payload) : M unit :=
  data <- coerce data ;;
  if _EEPROM_LENGTH <? len data + data_address then
    raise (ValueError (GoBeyondLimit data_address (len data)))
  else
    let '(total_pages, remaining_bytes, offset) :=
      if 1 <? len data then
        let total_pages := len data / _PAGE_SIZE in
        let remaining_bytes := len data mod _PAGE_SIZE in
        let offset := _PAGE_SIZE - data_address mod _PAGE_SIZE in
        let offset := if offset =? 16 then 0 else offset in
        let remaining_bytes := remaining_bytes - offset in
        (total_pages, remaining_bytes, offset)
      else (0, 1, 0) in
    let current_address := data_address in
    current_address <-
      (if 0 <? offset then
         _write_page self data_address (slice data 0 offset) ;;;
         ret (current_address + offset)
       else ret current_address) ;;
    current_address <-
      (if 0 <? total_pages then
         _write_loop self data (range offset (total_pages * _PAGE_SIZE) _PAGE_SIZE)
                     current_address
       else ret current_address) ;;
    if 0 <? remaining_bytes then
      _write_page self current_address
                  (slice_from data (offset + total_pages * _PAGE_SIZE))
    else ret tt.

(** The bound checks [__getitem__] and [__setitem__] share. *)
Definition slice_start (start : option Z) : M Z :=
  match start with
  | Some start =>
      if (start <? 0) || (_EEPROM_LENGTH <=? start)
      then raise (ValueError StartBeyondLimit) else ret start
  | None => ret 0
  end.

Definition slice_stop (stop : option Z) : M Z :=
  match stop with
  | Some stop =>
      if (stop <? 0) || (_EEPROM_LENGTH <=? stop)
      then raise (ValueError StopBeyondLimit) else ret stop
  | None => ret _EEPROM_LENGTH
  end.

Definition __getitem__ (self : AT24MAC) (address : key) : M value :=
  match address with
  | KInt address => _read self address 1
  | KSlice start stop _ =>
      start <- slice_start start ;;
      stop <- slice_stop stop ;;
      let length := stop - start in
      _read self start length
  | KOther => raise (ValueError ItemShape)
  end.

Definition __setitem__ (self : AT24MAC) (address : key) (data : payload) : M unit :=
  match address with
  | KInt address => _write self address data
  | KSlice start stop _ =>
      start <- slice_start start ;;
      stop <- slice_stop stop ;;
      _write self start data
  | KOther => raise (ValueError ItemShape)
  end.

Definition __len__ (self : AT24MAC) : Z := _EEPROM_LENGTH.

(** ** The sequence of page writes [_write] performs

    [split_plan] lists, in order, the address and the bytes of every call
    of [_write_page] that [_write] makes for a payload [data] at
    [data_address]; [write_pages] performs such a list.  Lemma
    [_write_split_plan] below shows that this is what [_write] does. *)

Definition split_plan (data_address : Z) (data : list byte) : list (Z * list byte) :=
  if 1 <? len data then
    let total_pages := len data / _PAGE_SIZE in
    let offset := _PAGE_SIZE - data_address mod _PAGE_SIZE in
    let offset := if offset =? 16 then 0 else offset in
    let remaining_bytes := len data mod _PAGE_SIZE - offset in
    let indices :=
      if 0 <? total_pages then range offset (total_pages * _PAGE_SIZE) _PAGE_SIZE
      else [] in
    (if 0 <? offset then [(data_address, slice data 0 offset)] else [])
    ++ map (fun i => (data_address + i, slice data i (i + _PAGE_SIZE))) indices
    ++ (if 0 <? remaining_bytes
        then [(data_address + offset + _PAGE_SIZE * Z.of_nat (length indices),
               slice_from data (offset + total_pages * _PAGE_SIZE))]
        else [])
  else [(data_address, slice_from data 0)].

Fixpoint write_pages (self : AT24MAC) (plan : list (Z * list byte)) : M unit :=
  match plan with
  | [] => ret tt
  | (data_address, data) :: plan' =>
      _write_page self data_address data ;;; write_pages self plan'
  end.

(** [tiles a data plan]: the chunks of [plan] are non-empty, their
    concatenation is [data], and each starts where the previous one ends,
    the first at [a]. *)
Fixpoint tiles (a : Z) (data : list byte) (plan : list (Z * list byte)) : Prop :=
  match plan with
  | [] => data = []
  | (a', chunk) :: plan' =>
      a' = a /\ chunk <> [] /\ firstn (length chunk) data = chunk /\
      tiles (a + len chunk) (skipn (length chunk) data) plan'
  end.

(** A chunk that a page of the array can take in one write. *)
Definition fits_page (c : Z * list byte) : Prop :=
  0 <= fst c /\ fst c mod _PAGE_SIZE + len (snd c) <= _PAGE_SIZE.

(** The number of bytes from [data_address] up to the next page boundary,
    zero when [data_address] is on one: the [offset] of [_write]. *)
Definition leading_bytes (data_address : Z) : Z :=
  let offset := _PAGE_SIZE - data_address mod _PAGE_SIZE in
  if offset =? 16 then 0 else offset.

(** [holds m a data]: the cells of [m] from [a] on contain [data]. *)
Definition holds (m : memory) (a : Z) (data : list byte) : Prop :=
  forall i : nat, (i < length data)%nat -> m (a + Z.of_nat i) = nth i data x00.

(** ** Predicates on bus events *)

(** The bytes a [Write] commits lie within [[k*16, (k+1)*16)] for some [k]. *)
Definition within_one_page (e : event) : Prop :=
  match e with
  | Write _ (a :: data) =>
      data <> [] /\
      exists k, k * _PAGE_SIZE <= byte_value a /\
                byte_value a + len data <= (k + 1) * _PAGE_SIZE
  | Write _ [] => False
  | _ => True
  end.

Definition is_comparison_read (e : event) : bool :=
  match e with
  | WriteThenReadInto _ _ _ => true
  | _ => false
  end.

Definition is_write (e : event) : bool :=
  match e with
  | Write _ _ => true
  | _ => false
  end.

Definition is_sleep (e : event) : bool :=
  match e with
  | Sleep _ => true
  | _ => false
  end.

Definition event_device (e : event) : option Z :=
  match e with
  | Probe d | WriteThenReadInto d _ _ | Write d _ => Some d
  | Sleep _ => None
  end.

(** The byte [to_bytes] produces for an address in 0..255. *)
Definition address_byte (a : Z) : byte :=
  match Byte.of_N (Z.to_N a) with
  | Some b => b
  | None => x00
  end.

(** [on_device d e]: the transaction [e], if it is one, addresses [d]. *)
Definition on_device (d : Z) (e : event) : Prop :=
  match event_device e with
  | Some d' => d' = d
  | None => True
  end.

(** [already_holds s d a c]: the comparison of [_does_data_match] on the
    store [s], for the chunk [c] at [a] of the device [d]. *)
Definition already_holds (s : store) (d a : Z) (c : list byte) : bool :=
  if list_eq_dec Byte.byte_eq_dec (sequential_read (s d) a (length c)) c
  then true else false.

(** The events of the page write of the chunk [c], the comparison being
    made on the store [s]. *)
Definition page_events (self : AT24MAC) (s : store) (c : Z * list byte)
  : list event :=
  WriteThenReadInto (eeprom_device self) [address_byte (fst c)] (length (snd c))
  :: (if already_holds s (eeprom_device self) (fst c) (snd c) then []
      else [Write (eeprom_device self) (address_byte (fst c) :: snd c);
            Sleep _WRITE_TIME]).

(** A slice bound that passes the check of [__getitem__] and
    [__setitem__], and the value it stands for. *)
Definition accepted (bound : option Z) : Prop :=
  match bound with
  | Some v => 0 <= v < _EEPROM_LENGTH
  | None => True
  end.

Definition bound_or (default : Z) (bound : option Z) : Z :=
  match bound with
  | Some v => v
  | None => default
  end.

(** ** A concrete part, for examples

    A blank part reads [0xFF] everywhere; [board] is the driver object for
    the default [address_pins = 0b100]. *)
Definition blank : store := fun _ _ => xff.

Definition board : AT24MAC :=
  mkAT24MAC 0x54 0x5C (repeat xff 6) (from_bytes (repeat xff 16)).

Definition twenty : list byte :=
  [x00; x01; x02; x03; x04; x05; x06; x07; x08; x09;
   x0a; x0b; x0c; x0d; x0e; x0f; x10; x11; x12; x13].

(** ** Further notions, for the properties beyond the claims *)

(** The number of pages the [n >= 1] cells from [a] on lie in. *)
Definition pages_touched (a n : Z) : Z :=
  (a + n - 1) / _PAGE_SIZE - a / _PAGE_SIZE + 1.

(** [settled evs]: every [Write] of [evs] is followed at once by the
    [Sleep] of [_WRITE_TIME]. *)
Fixpoint settled (evs : list event) : Prop :=
  match evs with
  | [] => True
  | Write _ _ :: rest =>
      match rest with
      | Sleep seconds :: rest' => seconds = _WRITE_TIME /\ settled rest'
      | _ => False
      end
  | _ :: rest => settled rest
  end.

(** The store after a program has made the item assignments [ops] one after
    the other, going on after an assignment that raised. *)
Fixpoint store_after (self : AT24MAC) (ops : list (key * payload)) (s : store)
  : store :=
  match ops with
  | [] => s
  | (address, data) :: ops' =>
      store_after self ops' (st (__setitem__ self address data s))
  end.

(** An integer a byte can hold. *)
Definition in_byte_range (v : Z) : Prop := 0 <= v <= 255.

(** * Properties *)

(** ** The monad *)

Lemma bind_assoc {A B C} (m : M A) (f : A -> M B) (g : B -> M C) (s : store) :
  bind (bind m f) g s = bind m (fun a => bind (f a) g) s.
Proof.
  unfold bind; cbn.
  destruct (res (m s)); cbn; [|reflexivity].
  destruct (res (f a (st (m s)))); cbn; [|reflexivity].
  now rewrite app_assoc.
Qed.

Lemma bind_ext {A B} (m m' : M A) (f f' : A -> M B) (s : store) :
  m s = m' s -> (forall a s', f a s' = f' a s') -> bind m f s = bind m' f' s.
Proof.
  intros Hm Hf. unfold bind. rewrite Hm.
  destruct (res (m' s)); [now rewrite Hf | reflexivity].
Qed.

Lemma bind_ret_r {A} (m : M A) (s : store) : bind m ret s = m s.
Proof.
  unfold bind, ret; cbn.
  destruct (m s) as [r s' e]; cbn.
  destruct r; cbn; now rewrite ?app_nil_r.
Qed.

Lemma bind_unit_ret (m : M unit) (s : store) : bind m (fun _ => ret tt) s = m s.
Proof.
  unfold bind, ret; cbn.
  destruct (m s) as [r s' e]; cbn.
  destruct r as [[]|]; cbn; now rewrite ?app_nil_r.
Qed.

(** ** Interpreter primitives *)

Lemma byte_value_range (b : byte) : 0 <= byte_value b < 256.
Proof.
  unfold byte_value. pose proof (Byte.to_N_bounded b). lia.
Qed.

Lemma address_byte_spec (a : Z) :
  0 <= a < 256 ->
  Byte.of_N (Z.to_N a) = Some (address_byte a) /\ byte_value (address_byte a) = a.
Proof.
  intros Ha. unfold address_byte, byte_value.
  destruct (Byte.of_N (Z.to_N a)) as [b|] eqn:E.
  - split; [reflexivity|]. apply Byte.to_of_N in E. rewrite E. lia.
  - apply Byte.of_N_None_iff in E. lia.
Qed.

Lemma to_bytes_ok (a : Z) (s : store) :
  0 <= a < 256 -> to_bytes a s = mkOutcome (Ok [address_byte a]) s [].
Proof.
  intros Ha. unfold to_bytes.
  destruct (Z.ltb_spec a 0); [lia|].
  destruct (address_byte_spec a Ha) as [-> _]. reflexivity.
Qed.

Lemma to_bytes_negative (a : Z) (s : store) :
  a < 0 -> to_bytes a s = mkOutcome (Raise OverflowError) s [].
Proof.
  intros Ha. unfold to_bytes.
  destruct (Z.ltb_spec a 0); [reflexivity|lia].
Qed.

Lemma bytearray_ok (n : Z) (s : store) :
  0 <= n -> bytearray n s = mkOutcome (Ok (repeat x00 (Z.to_nat n))) s [].
Proof.
  intros Hn. unfold bytearray.
  destruct (Z.ltb_spec n 0); [lia|reflexivity].
Qed.

Lemma sequential_read_length (m : memory) (a : Z) (n : nat) :
  length (sequential_read m a n) = n.
Proof.
  unfold sequential_read. now rewrite length_map, length_seq.
Qed.

(** ** [_read] *)

Lemma _read_ok (self : AT24MAC) (a n : Z) (s : store) :
  0 <= a < 256 -> 0 <= n -> a + n <= 256 ->
  _read self a n s =
  mkOutcome
    (if 1 <? n
     then Ok (VBytes (sequential_read (s (eeprom_device self)) a (Z.to_nat n)))
     else match sequential_read (s (eeprom_device self)) a (Z.to_nat n) with
          | item :: _ => Ok (VInt item)
          | [] => Raise IndexError
          end)
    s
    [WriteThenReadInto (eeprom_device self) [address_byte a] (Z.to_nat n)].
Proof.
  intros Ha Hn Hfit. unfold _read, _EEPROM_LENGTH.
  destruct (Z.ltb_spec 256 (n + a)); [lia|].
  unfold bind. rewrite bytearray_ok by assumption. cbn.
  rewrite to_bytes_ok by assumption. cbn.
  rewrite repeat_length.
  destruct (address_byte_spec a Ha) as [_ ->].
  destruct (1 <? n); [reflexivity|].
  destruct (sequential_read _ a (Z.to_nat n)); reflexivity.
Qed.

Lemma _read_negative_address (self : AT24MAC) (a n : Z) (s : store) :
  a < 0 -> 0 <= n -> a + n <= 256 ->
  _read self a n s = mkOutcome (Raise OverflowError) s [].
Proof.
  intros Ha Hn Hfit. unfold _read, _EEPROM_LENGTH.
  destruct (Z.ltb_spec 256 (n + a)); [lia|].
  unfold bind. rewrite bytearray_ok by assumption. cbn.
  rewrite to_bytes_negative by assumption. reflexivity.
Qed.

Lemma _read_beyond (self : AT24MAC) (a n : Z) (s : store) :
  256 < a + n ->
  _read self a n s = mkOutcome (Raise (ValueError (GoBeyondLimit a n))) s [].
Proof.
  intros Hfit. unfold _read, _EEPROM_LENGTH.
  destruct (Z.ltb_spec 256 (n + a)); [reflexivity|lia].
Qed.

(** ** [_does_data_match] and [_write_page] *)

Lemma len_nonneg (data : list byte) : 0 <= len data.
Proof. unfold len. lia. Qed.

Lemma len_app (c d : list byte) : len (c ++ d) = len c + len d.
Proof. unfold len. rewrite length_app. lia. Qed.

Lemma len_pos (data : list byte) : data <> [] -> 1 <= len data.
Proof. destruct data; [congruence|]. unfold len. cbn [length]. lia. Qed.

Lemma _does_data_match_ok (self : AT24MAC) (a : Z) (c : list byte) (s : store) :
  c <> [] -> 0 <= a -> a + len c <= 256 ->
  _does_data_match self a c s =
  mkOutcome
    (Ok (if list_eq_dec Byte.byte_eq_dec
              (sequential_read (s (eeprom_device self)) a (length c)) c
         then true else false))
    s
    [WriteThenReadInto (eeprom_device self) [address_byte a] (length c)].
Proof.
  intros Hc Ha Hfit. pose proof (len_pos c Hc) as Hlen.
  unfold _does_data_match, bind.
  rewrite _read_ok by lia.
  replace (Z.to_nat (len c)) with (length c) by (unfold len; lia).
  destruct c as [|b0 [|b1 c']]; [congruence| |].
  - reflexivity.
  - assert (H1 : (1 <? len (b0 :: b1 :: c')) = true)
      by (apply Z.ltb_lt; unfold len; cbn [length]; lia).
    assert (H2 : (len (b0 :: b1 :: c') =? 1) = false)
      by (apply Z.eqb_neq; unfold len; cbn [length]; lia).
    rewrite H1, H2. reflexivity.
Qed.

Lemma _write_page_ok (self : AT24MAC) (a : Z) (c : list byte) (s : store) :
  c <> [] -> 0 <= a -> a + len c <= 256 ->
  _write_page self a c s =
  if list_eq_dec Byte.byte_eq_dec
       (sequential_read (s (eeprom_device self)) a (length c)) c
  then mkOutcome (Ok tt) s
         [WriteThenReadInto (eeprom_device self) [address_byte a] (length c)]
  else mkOutcome (Ok tt)
         (device_write s (eeprom_device self) (address_byte a :: c))
         [WriteThenReadInto (eeprom_device self) [address_byte a] (length c);
          Write (eeprom_device self) (address_byte a :: c);
          Sleep _WRITE_TIME].
Proof.
  intros Hc Ha Hfit. pose proof (len_pos c Hc) as Hlen.
  unfold _write_page, bind.
  rewrite _does_data_match_ok by assumption. cbn [res st evs].
  destruct (list_eq_dec _ _ c); cbn [negb]; [reflexivity|].
  rewrite to_bytes_ok by lia. reflexivity.
Qed.

(** ** [_write] performs [split_plan] *)

Lemma bind_ret_l {A B} (c : A) (K : A -> M B) (s : store) :
  bind (ret c) K s = K c s.
Proof. reflexivity. Qed.

Lemma bind_then_ret {A B} (m : M unit) (c : A) (m1 : M A) (K : A -> M B)
      (K' : M B) (s : store) :
  (forall s', m1 s' = bind m (fun _ => ret c) s') ->
  (forall s', K c s' = K' s') ->
  bind m1 K s = bind m (fun _ => K') s.
Proof.
  intros H HK.
  rewrite (bind_ext m1 (bind m (fun _ => ret c)) K K) by auto.
  rewrite bind_assoc. apply bind_ext; [reflexivity|].
  intros _ s'. rewrite bind_ret_l. apply HK.
Qed.

Lemma write_pages_app (self : AT24MAC) (p q : list (Z * list byte)) (s : store) :
  write_pages self (p ++ q) s =
  bind (write_pages self p) (fun _ => write_pages self q) s.
Proof.
  revert s. induction p as [|[a c] p IH]; intros s.
  - reflexivity.
  - cbn [app write_pages]. rewrite bind_assoc.
    apply bind_ext; [reflexivity|]. intros _ s'. apply IH.
Qed.

Lemma _write_loop_range (self : AT24MAC) (data : list byte) (a offset : Z) :
  forall (n k0 : nat) (s : store),
    _write_loop self data
      (map (fun k => offset + 16 * Z.of_nat k) (seq k0 n))
      (a + (offset + 16 * Z.of_nat k0)) s =
    bind (write_pages self
            (map (fun i => (a + i, slice data i (i + _PAGE_SIZE)))
                 (map (fun k => offset + 16 * Z.of_nat k) (seq k0 n))))
         (fun _ => ret (a + (offset + 16 * Z.of_nat (k0 + n)))) s.
Proof.
  induction n as [|n IH]; intros k0 s.
  - cbn [seq map _write_loop write_pages]. rewrite Nat.add_0_r. reflexivity.
  - cbn [seq map _write_loop write_pages]. rewrite bind_assoc.
    apply bind_ext; [reflexivity|]. intros _ s'.
    replace (a + (offset + 16 * Z.of_nat k0) + _PAGE_SIZE)
      with (a + (offset + 16 * Z.of_nat (S k0))) by (unfold _PAGE_SIZE; lia).
    rewrite IH. now rewrite Nat.add_succ_r.
Qed.

Lemma range_page_step (start stop : Z) :
  range start stop _PAGE_SIZE =
  map (fun k => start + 16 * Z.of_nat k)
      (seq 0 (Z.to_nat ((stop - start + 16 - 1) / 16))).
Proof. reflexivity. Qed.

Lemma _write_split_plan (self : AT24MAC) (a : Z) (data : list byte) (s : store) :
  len data + a <= 256 ->
  _write self a (PBytes data) s = write_pages self (split_plan a data) s.
Proof.
  intros Hfit. unfold _write, coerce. rewrite bind_ret_l.
  unfold _EEPROM_LENGTH.
  destruct (Z.ltb_spec 256 (len data + a)) as [|_]; [lia|].
  unfold split_plan.
  destruct (1 <? len data).
  2:{ cbn. now rewrite bind_unit_ret. }
  set (total_pages := len data / _PAGE_SIZE).
  set (off := if _PAGE_SIZE - a mod _PAGE_SIZE =? 16 then 0
              else _PAGE_SIZE - a mod _PAGE_SIZE).
  set (remaining := len data mod _PAGE_SIZE - off).
  assert (Hoff : 0 <= off < 16).
  { subst off. unfold _PAGE_SIZE.
    pose proof (Z.mod_pos_bound a 16 ltac:(lia)).
    destruct (Z.eqb_spec (16 - a mod 16) 16); lia. }
  cbv beta iota zeta.
  set (indices := if 0 <? total_pages
                  then range off (total_pages * _PAGE_SIZE) _PAGE_SIZE else []).
  rewrite write_pages_app.
  apply bind_then_ret with (c := a + (off + 16 * Z.of_nat 0)).
  { intros s'. destruct (Z.ltb_spec 0 off).
    - cbn [write_pages]. rewrite bind_assoc.
      apply bind_ext; [reflexivity|]. intros _ s''.
      rewrite bind_ret_l.
      replace (a + (off + 16 * Z.of_nat 0)) with (a + off) by lia. reflexivity.
    - replace (a + (off + 16 * Z.of_nat 0)) with a by lia. reflexivity. }
  intros s1. rewrite write_pages_app.
  apply bind_then_ret
    with (c := a + off + _PAGE_SIZE * Z.of_nat (length indices)).
  { intros s''. subst indices. destruct (0 <? total_pages).
    - rewrite range_page_step, _write_loop_range.
      rewrite length_map, length_seq.
      apply bind_ext; [reflexivity|]. intros _ s3.
      f_equal. unfold _PAGE_SIZE. cbn [Nat.add]. lia.
    - cbn [length map write_pages]. rewrite bind_ret_l.
      f_equal. unfold _PAGE_SIZE. lia. }
  intros s2. destruct (0 <? remaining).
  - cbn [write_pages]. now rewrite bind_unit_ret.
  - reflexivity.
Qed.

(** ** The shape of [split_plan] *)

Lemma leading_bytes_range (a : Z) : 0 <= leading_bytes a < 16.
Proof.
  unfold leading_bytes, _PAGE_SIZE.
  pose proof (Z.mod_pos_bound a 16 ltac:(lia)).
  destruct (Z.eqb_spec (16 - a mod 16) 16); lia.
Qed.

Lemma leading_bytes_aligned (a : Z) : (a + leading_bytes a) mod 16 = 0.
Proof.
  unfold leading_bytes, _PAGE_SIZE.
  destruct (Z.eqb_spec (16 - a mod 16) 16); Z.div_mod_to_equations; lia.
Qed.

Lemma leading_bytes_fit (a : Z) :
  0 < leading_bytes a -> a mod 16 + leading_bytes a = 16.
Proof.
  unfold leading_bytes, _PAGE_SIZE.
  destruct (Z.eqb_spec (16 - a mod 16) 16); lia.
Qed.

Lemma split_plan_long (a : Z) (data : list byte) :
  1 < len data ->
  split_plan a data =
  (if 0 <? leading_bytes a then [(a, slice data 0 (leading_bytes a))] else [])
  ++ map (fun i => (a + i, slice data i (i + _PAGE_SIZE)))
         (map (fun k => leading_bytes a + 16 * Z.of_nat k)
              (seq 0 (Z.to_nat (len data / 16))))
  ++ (if 0 <? len data - (leading_bytes a + 16 * (len data / 16))
      then [(a + (leading_bytes a + 16 * (len data / 16)),
             slice_from data (leading_bytes a + 16 * (len data / 16)))]
      else []).
Proof.
  intros Hlen. unfold split_plan.
  destruct (Z.ltb_spec 1 (len data)) as [_|]; [|lia].
  fold (leading_bytes a). cbv zeta.
  pose proof (leading_bytes_range a) as Hoff.
  set (off := leading_bytes a) in *.
  assert (Hidx :
    (if 0 <? len data / _PAGE_SIZE
     then range off (len data / _PAGE_SIZE * _PAGE_SIZE) _PAGE_SIZE else []) =
    map (fun k => off + 16 * Z.of_nat k) (seq 0 (Z.to_nat (len data / 16)))).
  { unfold _PAGE_SIZE. destruct (Z.ltb_spec 0 (len data / 16)) as [Hp|Hp].
    - rewrite range_page_step. do 3 f_equal.
      Z.div_mod_to_equations. lia.
    - replace (Z.to_nat (len data / 16)) with 0%nat by lia. reflexivity. }
  rewrite Hidx. rewrite !length_map, length_seq.
  f_equal. f_equal. unfold _PAGE_SIZE.
  assert (Hq : 0 <= len data / 16) by (Z.div_mod_to_equations; lia).
  replace (len data mod 16 - off) with (len data - (off + 16 * (len data / 16)))
    by (Z.div_mod_to_equations; lia).
  replace (a + off + 16 * Z.of_nat (Z.to_nat (len data / 16)))
    with (a + (off + 16 * (len data / 16))) by lia.
  replace (off + len data / 16 * 16) with (off + 16 * (len data / 16)) by lia.
  reflexivity.
Qed.

Lemma firstn_length_firstn (n : nat) (l : list byte) :
  firstn (length (firstn n l)) l = firstn n l.
Proof.
  rewrite length_firstn.
  destruct (Nat.le_ge_cases n (length l)).
  - now rewrite Nat.min_l.
  - rewrite Nat.min_r by assumption. now rewrite firstn_all, firstn_all2.
Qed.

Lemma len_skipn (n : nat) (l : list byte) :
  (n <= length l)%nat -> len (skipn n l) = len l - Z.of_nat n.
Proof. intros H. unfold len. rewrite length_skipn. lia. Qed.

Lemma len_firstn (n : nat) (l : list byte) :
  len (firstn n l) = Z.min (Z.of_nat n) (len l).
Proof. unfold len. rewrite length_firstn. lia. Qed.

Lemma tiles_single (a : Z) (data : list byte) :
  data <> [] -> tiles a data [(a, data)].
Proof.
  intros H. cbn. repeat split; [assumption|apply firstn_all|apply skipn_all].
Qed.

Lemma tiles_loop (a off : Z) (data : list byte) (T : list (Z * list byte)) :
  0 <= off ->
  forall (n k0 : nat),
    ((0 < n)%nat -> off + 16 * Z.of_nat (k0 + n - 1) < len data) ->
    off + 16 * Z.of_nat k0 <= len data ->
    (off + 16 * Z.of_nat (k0 + n) < len data ->
     tiles (a + (off + 16 * Z.of_nat (k0 + n)))
           (skipn (Z.to_nat (off + 16 * Z.of_nat (k0 + n))) data) T) ->
    (len data <= off + 16 * Z.of_nat (k0 + n) -> T = []) ->
    tiles (a + (off + 16 * Z.of_nat k0))
          (skipn (Z.to_nat (off + 16 * Z.of_nat k0)) data)
          (map (fun i => (a + i, slice data i (i + _PAGE_SIZE)))
               (map (fun k => off + 16 * Z.of_nat k) (seq k0 n)) ++ T).
Proof.
  intros Hoff. induction n as [|n IH]; intros k0 Hne Hstart HT HnoT.
  - cbn [seq map app]. rewrite Nat.add_0_r in *.
    destruct (Z.lt_ge_cases (off + 16 * Z.of_nat k0) (len data)) as [Hlt|Hge].
    + auto.
    + rewrite (HnoT Hge). cbn [tiles]. apply skipn_all2. unfold len in *. lia.
  - cbn [seq map app].
    set (s0 := off + 16 * Z.of_nat k0) in *.
    assert (Hs0 : s0 < len data).
    { specialize (Hne ltac:(lia)). subst s0. lia. }
    unfold slice at 1.
    replace (Z.to_nat (s0 + _PAGE_SIZE - s0)) with 16%nat
      by (unfold _PAGE_SIZE; lia).
    set (X := skipn (Z.to_nat s0) data).
    assert (HX : len X = len data - s0).
    { subst X. rewrite len_skipn; unfold len in *; lia. }
    assert (HXdef : X = skipn (Z.to_nat s0) data) by reflexivity.
    assert (Hs0def : s0 = off + 16 * Z.of_nat k0) by reflexivity.
    clearbody X s0.
    cbn [tiles]. split; [reflexivity|]. split.
    { intros E. apply (f_equal len) in E. rewrite len_firstn in E.
      change (len []) with 0 in E. lia. }
    split; [apply firstn_length_firstn|].
    destruct (Z.le_gt_cases (s0 + 16) (len data)) as [Hfull|Hshort].
    + assert (Hc : length (firstn 16 X) = 16%nat).
      { rewrite length_firstn. unfold len in *. lia. }
      rewrite Hc. unfold len at 1. rewrite Hc.
      rewrite HXdef, skipn_skipn.
      replace (a + s0 + Z.of_nat 16) with (a + (off + 16 * Z.of_nat (S k0)))
        by (subst s0; lia).
      replace (16 + Z.to_nat s0)%nat with (Z.to_nat (off + 16 * Z.of_nat (S k0)))
        by (subst s0; lia).
      apply IH.
      * intros Hn. specialize (Hne ltac:(lia)).
        replace (S k0 + n - 1)%nat with (k0 + S n - 1)%nat by lia. assumption.
      * subst s0. lia.
      * replace (S k0 + n)%nat with (k0 + S n)%nat by lia. assumption.
      * replace (S k0 + n)%nat with (k0 + S n)%nat by lia. assumption.
    + assert (Hn : n = 0%nat).
      { destruct n; [reflexivity|]. specialize (Hne ltac:(lia)).
        subst s0. lia. }
      subst n. cbn [seq map app].
      rewrite HnoT by (subst s0; lia).
      cbn [tiles]. rewrite firstn_all2 by (unfold len in *; lia).
      apply skipn_all.
Qed.

Lemma split_plan_tiles (a : Z) (data : list byte) :
  data <> [] -> tiles a data (split_plan a data).
Proof.
  intros Hdata. pose proof (len_pos data Hdata) as Hlen.
  destruct (Z.le_gt_cases (len data) 1) as [Hone|Hlong].
  - unfold split_plan. destruct (Z.ltb_spec 1 (len data)); [lia|].
    apply tiles_single. assumption.
  - rewrite split_plan_long by assumption.
    pose proof (leading_bytes_range a) as Hoff.
    set (off := leading_bytes a) in *.
    set (tp := len data / 16).
    assert (Htp : 0 <= tp /\ 16 * tp <= len data < 16 * tp + 16)
      by (subst tp; Z.div_mod_to_equations; lia).
    set (T := if 0 <? len data - (off + 16 * tp)
              then [(a + (off + 16 * tp), slice_from data (off + 16 * tp))]
              else []).
    assert (Hrest : off <= len data ->
              tiles (a + (off + 16 * Z.of_nat 0))
                    (skipn (Z.to_nat (off + 16 * Z.of_nat 0)) data)
                    (map (fun i => (a + i, slice data i (i + _PAGE_SIZE)))
                         (map (fun k => off + 16 * Z.of_nat k)
                              (seq 0 (Z.to_nat tp))) ++ T)).
    { intros Hle. apply tiles_loop; try lia.
      - cbn [Nat.add]. rewrite Z2Nat.id by lia. intros Hlt. subst T.
        destruct (Z.ltb_spec 0 (len data - (off + 16 * tp))); [|lia].
        apply tiles_single. unfold slice_from.
        intros E. apply (f_equal len) in E.
        rewrite len_skipn in E by (unfold len in *; lia).
        change (len []) with 0 in E. lia.
      - cbn [Nat.add]. rewrite Z2Nat.id by lia. intros Hge. subst T.
        destruct (Z.ltb_spec 0 (len data - (off + 16 * tp))); [lia|reflexivity]. }
    replace (a + (off + 16 * Z.of_nat 0)) with (a + off) in Hrest by lia.
    replace (Z.to_nat (off + 16 * Z.of_nat 0)) with (Z.to_nat off) in Hrest by lia.
    destruct (Z.ltb_spec 0 off) as [Hpos|Hzero].
    + cbn [app]. unfold slice at 1.
      replace (Z.to_nat (off - 0)) with (Z.to_nat off) by lia.
      cbn [Z.to_nat skipn].
      destruct (Z.le_gt_cases off (len data)) as [Hle|Hgt].
      * assert (Hc : length (firstn (Z.to_nat off) data) = Z.to_nat off).
        { rewrite length_firstn. unfold len in *. lia. }
        cbn [tiles]. split; [reflexivity|]. split.
        { intros E. rewrite E in Hc. cbn in Hc. lia. }
        split; [apply firstn_length_firstn|].
        rewrite Hc. unfold len at 1. rewrite Hc.
        rewrite Z2Nat.id by lia. auto.
      * assert (Htp0 : tp = 0) by lia.
        rewrite Htp0. cbn [Z.to_nat seq map app]. subst T. rewrite Htp0.
        destruct (Z.ltb_spec 0 (len data - (off + 16 * 0))); [lia|].
        rewrite firstn_all2 by (unfold len in *; lia).
        apply tiles_single. assumption.
    + assert (Hoff0 : off = 0) by lia.
      cbn [app]. rewrite Hoff0 in Hrest.
      replace (a + 0) with a in Hrest by lia.
      cbn [Z.to_nat skipn] in Hrest. rewrite Hoff0. apply Hrest. lia.
Qed.

Lemma split_plan_fits (a : Z) (data : list byte) :
  0 <= a -> data <> [] -> Forall fits_page (split_plan a data).
Proof.
  intros Ha Hdata. pose proof (len_pos data Hdata) as Hlen.
  destruct (Z.le_gt_cases (len data) 1) as [Hone|Hlong].
  - unfold split_plan. destruct (Z.ltb_spec 1 (len data)); [lia|].
    constructor; [|constructor]. unfold fits_page, slice_from, _PAGE_SIZE.
    cbn [fst snd Z.to_nat skipn].
    pose proof (Z.mod_pos_bound a 16 ltac:(lia)). lia.
  - rewrite split_plan_long by assumption.
    pose proof (leading_bytes_range a) as Hoff.
    pose proof (leading_bytes_aligned a) as Hal.
    pose proof (leading_bytes_fit a) as Hfit.
    remember (leading_bytes a) as off eqn:Eoff. clear Eoff.
    assert (Htp : 0 <= len data / 16 /\
                  16 * (len data / 16) <= len data < 16 * (len data / 16) + 16)
      by (Z.div_mod_to_equations; lia).
    remember (len data / 16) as tp eqn:Etp. clear Etp.
    apply Forall_app. split; [|apply Forall_app; split].
    + destruct (Z.ltb_spec 0 off); constructor; [|constructor].
      unfold fits_page, slice, _PAGE_SIZE. cbn [fst snd].
      rewrite len_firstn. lia.
    + rewrite !Forall_map. apply Forall_forall. intros k _.
      unfold fits_page, slice, _PAGE_SIZE. cbn [fst snd].
      rewrite len_firstn.
      assert ((a + (off + 16 * Z.of_nat k)) mod 16 = 0)
        by (Z.div_mod_to_equations; lia).
      lia.
    + destruct (Z.ltb_spec 0 (len data - (off + 16 * tp))); constructor;
        [|constructor].
      unfold fits_page, slice_from, _PAGE_SIZE. cbn [fst snd].
      rewrite len_skipn by (unfold len in *; lia).
      assert ((a + (off + 16 * tp)) mod 16 = 0)
        by (Z.div_mod_to_equations; lia).
      lia.
Qed.

(** ** The array *)

Lemma next_in_page_step (a : Z) : a mod 16 < 15 -> next_in_page a = a + 1.
Proof. unfold next_in_page. intros H. Z.div_mod_to_equations. lia. Qed.

Lemma cell_set_same (m : memory) (a : Z) (b : byte) : cell_set m a b a = b.
Proof. unfold cell_set. now rewrite Z.eqb_refl. Qed.

Lemma cell_set_other (m : memory) (a x : Z) (b : byte) :
  x <> a -> cell_set m a b x = m x.
Proof. unfold cell_set. intros H. destruct (Z.eqb_spec x a); [contradiction|reflexivity]. Qed.

Lemma page_program_spec (data : list byte) :
  forall (m : memory) (a : Z),
    a mod 16 + len data <= 16 ->
    holds (page_program m a data) a data /\
    (forall x, x < a \/ a + len data <= x -> page_program m a data x = m x).
Proof.
  induction data as [|b data IH]; intros m a Hfit.
  - split; [intros i Hi; cbn in Hi; lia | reflexivity].
  - cbn [page_program].
    assert (Hlen : len (b :: data) = 1 + len data)
      by (unfold len; cbn [length]; lia).
    pose proof (len_nonneg data) as Hnn.
    pose proof (Z.mod_pos_bound a 16 ltac:(lia)) as Hmod.
    destruct data as [|b' data'].
    + cbn [page_program]. split.
      * intros [|i] Hi; [|cbn in Hi; lia].
        cbn [nth]. replace (a + Z.of_nat 0) with a by lia. apply cell_set_same.
      * intros x Hx. apply cell_set_other.
        change (len [b]) with 1 in Hx. lia.
    + set (data := b' :: data') in *.
      assert (Hpos : 1 <= len data) by (apply len_pos; discriminate).
      rewrite next_in_page_step by lia.
      destruct (IH (cell_set m a b) (a + 1)) as [Hcontent Hframe].
      { replace ((a + 1) mod 16) with (a mod 16 + 1)
          by (Z.div_mod_to_equations; lia). lia. }
      split.
      * intros [|i] Hi.
        -- cbn [nth]. replace (a + Z.of_nat 0) with a by lia.
           rewrite Hframe by lia. apply cell_set_same.
        -- cbn [nth]. replace (a + Z.of_nat (S i)) with (a + 1 + Z.of_nat i) by lia.
           apply Hcontent. cbn [length] in Hi. lia.
      * intros x Hx. rewrite Hframe by lia. apply cell_set_other. lia.
Qed.

Lemma nth_map_seq {A} (f : nat -> A) (n i : nat) (d : A) :
  (i < n)%nat -> nth i (map f (seq 0 n)) d = f i.
Proof.
  intros Hi.
  rewrite (nth_indep _ d (f 0%nat)) by now rewrite length_map, length_seq.
  rewrite (map_nth f), seq_nth by assumption. reflexivity.
Qed.

Lemma holds_read (m : memory) (a : Z) (data : list byte) :
  0 <= a -> a + len data <= 256 ->
  (holds m a data <-> sequential_read m a (length data) = data).
Proof.
  intros Ha Hfit.
  assert (Hnth : forall i, (i < length data)%nat ->
            nth i (sequential_read m a (length data)) x00 = m (a + Z.of_nat i)).
  { intros i Hi. unfold sequential_read.
    rewrite nth_map_seq by assumption.
    rewrite Z.mod_small by (unfold len in Hfit; lia). reflexivity. }
  split.
  - intros H. apply nth_ext with (d := x00) (d' := x00).
    + apply sequential_read_length.
    + intros i Hi. rewrite sequential_read_length in Hi.
      rewrite Hnth by assumption. now apply H.
  - intros H i Hi. rewrite <- Hnth by assumption. now rewrite H.
Qed.

Lemma holds_app (m : memory) (a : Z) (c d : list byte) :
  holds m a c -> holds m (a + len c) d -> holds m a (c ++ d).
Proof.
  intros Hc Hd i Hi.
  destruct (Nat.lt_ge_cases i (length c)) as [Hlt|Hge].
  - rewrite app_nth1 by assumption. now apply Hc.
  - rewrite app_nth2 by assumption. rewrite length_app in Hi.
    replace (a + Z.of_nat i) with (a + len c + Z.of_nat (i - length c))
      by (unfold len; lia).
    apply Hd. lia.
Qed.

Lemma holds_app_inv (m : memory) (a : Z) (c d : list byte) :
  holds m a (c ++ d) -> holds m a c /\ holds m (a + len c) d.
Proof.
  intros H. split.
  - intros i Hi. rewrite <- (app_nth1 c d) by assumption.
    apply H. rewrite length_app. lia.
  - intros i Hi.
    replace (a + len c + Z.of_nat i) with (a + Z.of_nat (length c + i))
      by (unfold len; lia).
    rewrite H by (rewrite length_app; lia).
    rewrite app_nth2 by lia. f_equal. lia.
Qed.

(** ** What a page write leaves behind *)

Lemma bind_run {A B} (m : M A) (f : A -> M B) (s : store) (a : A) :
  res (m s) = Ok a ->
  bind m f s = mkOutcome (res (f a (st (m s)))) (st (f a (st (m s))))
                         (evs (m s) ++ evs (f a (st (m s)))).
Proof. unfold bind. intros ->. reflexivity. Qed.

Lemma device_write_same (s : store) (dev a : Z) (c : list byte) :
  0 <= a < 256 ->
  device_write s dev (address_byte a :: c) dev = page_program (s dev) a c.
Proof.
  intros Ha. cbn [device_write]. rewrite Z.eqb_refl.
  now destruct (address_byte_spec a Ha) as [_ ->].
Qed.

Lemma device_write_other (s : store) (dev d : Z) (buffer : list byte) :
  d <> dev -> device_write s dev buffer d = s d.
Proof.
  intros H. destruct buffer; [reflexivity|]. cbn [device_write].
  destruct (Z.eqb_spec d dev); [contradiction|reflexivity].
Qed.

Lemma within_one_page_write (dev a : Z) (c : list byte) :
  c <> [] -> 0 <= a < 256 -> a mod 16 + len c <= 16 ->
  within_one_page (Write dev (address_byte a :: c)).
Proof.
  intros Hc Ha Hfit. cbn [within_one_page]. split; [assumption|].
  destruct (address_byte_spec a Ha) as [_ ->].
  exists (a / 16). unfold _PAGE_SIZE. Z.div_mod_to_equations. lia.
Qed.

Lemma _write_page_post (self : AT24MAC) (a : Z) (c : list byte) (s : store) :
  c <> [] -> 0 <= a -> a + len c <= 256 -> a mod 16 + len c <= 16 ->
  res (_write_page self a c s) = Ok tt /\
  holds (st (_write_page self a c s) (eeprom_device self)) a c /\
  (forall x, x < a \/ a + len c <= x ->
     st (_write_page self a c s) (eeprom_device self) x = s (eeprom_device self) x) /\
  (forall d, d <> eeprom_device self -> st (_write_page self a c s) d = s d) /\
  Forall within_one_page (evs (_write_page self a c s)).
Proof.
  intros Hc Ha Hfit Hpage. pose proof (len_pos c Hc) as Hlen.
  rewrite _write_page_ok by assumption.
  destruct (list_eq_dec _ _ c) as [Heq|Hne]; cbn [res st evs].
  - repeat split; auto.
    + now apply holds_read.
    + constructor; [exact I|constructor].
  - destruct (page_program_spec c (s (eeprom_device self)) a Hpage)
      as [Hcontent Hframe].
    repeat split.
    + now rewrite device_write_same by lia.
    + intros x Hx. rewrite device_write_same by lia. now apply Hframe.
    + intros d Hd. now apply device_write_other.
    + constructor; [exact I|]. constructor; [|constructor; [exact I|constructor]].
      apply within_one_page_write; [assumption|lia|assumption].
Qed.

Lemma write_pages_post (self : AT24MAC) (plan : list (Z * list byte)) :
  forall (a : Z) (data : list byte) (s : store),
    tiles a data plan -> Forall fits_page plan ->
    0 <= a -> a + len data <= 256 ->
    res (write_pages self plan s) = Ok tt /\
    holds (st (write_pages self plan s) (eeprom_device self)) a data /\
    (forall x, x < a \/ a + len data <= x ->
       st (write_pages self plan s) (eeprom_device self) x =
       s (eeprom_device self) x) /\
    (forall d, d <> eeprom_device self -> st (write_pages self plan s) d = s d) /\
    Forall within_one_page (evs (write_pages self plan s)).
Proof.
  induction plan as [|[a' c] plan IH]; intros a data s Htiles Hfits Ha Hfit.
  - cbn [tiles] in Htiles. subst data. cbn.
    repeat split; auto. intros i Hi. cbn in Hi. lia.
  - cbn [tiles] in Htiles. destruct Htiles as (-> & Hc & Hfirst & Hrest).
    inversion Hfits as [|? ? [_ Hpage] Hfits']; subst. cbn [fst snd] in Hpage.
    pose proof (firstn_skipn (length c) data) as Hsplit. rewrite Hfirst in Hsplit.
    set (rest := skipn (length c) data) in *.
    assert (Hlen : len data = len c + len rest)
      by (rewrite <- Hsplit; apply len_app).
    pose proof (len_nonneg rest) as Hnn. pose proof (len_pos c Hc) as Hcpos.
    destruct (_write_page_post self a c s Hc Ha ltac:(lia) Hpage)
      as (Hres1 & Hholds1 & Hframe1 & Hother1 & Hevs1).
    cbn [write_pages]. rewrite (bind_run _ _ _ tt Hres1). cbn [res st evs].
    set (s1 := st (_write_page self a c s)) in *.
    destruct (IH (a + len c) rest s1 Hrest Hfits' ltac:(lia) ltac:(lia))
      as (Hres2 & Hholds2 & Hframe2 & Hother2 & Hevs2).
    split; [assumption|]. split; [|split; [|split]].
    + rewrite <- Hsplit. apply holds_app; [|assumption].
      intros i Hi. rewrite Hframe2 by (unfold len; lia). now apply Hholds1.
    + intros x Hx. rewrite Hframe2 by lia. apply Hframe1. lia.
    + intros d Hd. rewrite Hother2 by assumption. now apply Hother1.
    + apply Forall_app. now split.
Qed.

Lemma write_pages_idle (self : AT24MAC) (plan : list (Z * list byte)) :
  forall (a : Z) (data : list byte) (s : store),
    tiles a data plan -> 0 <= a -> a + len data <= 256 ->
    holds (s (eeprom_device self)) a data ->
    write_pages self plan s =
    mkOutcome (Ok tt) s
      (map (fun c => WriteThenReadInto (eeprom_device self)
                       [address_byte (fst c)] (length (snd c))) plan).
Proof.
  induction plan as [|[a' c] plan IH]; intros a data s Htiles Ha Hfit Hholds.
  - reflexivity.
  - cbn [tiles] in Htiles. destruct Htiles as (-> & Hc & Hfirst & Hrest).
    pose proof (firstn_skipn (length c) data) as Hsplit. rewrite Hfirst in Hsplit.
    set (rest := skipn (length c) data) in *.
    assert (Hlen : len data = len c + len rest)
      by (rewrite <- Hsplit; apply len_app).
    pose proof (len_nonneg rest) as Hnn. pose proof (len_pos c Hc) as Hcpos.
    rewrite <- Hsplit in Hholds. apply holds_app_inv in Hholds.
    destruct Hholds as [Hhc Hhrest].
    assert (Hpage : _write_page self a c s =
              mkOutcome (Ok tt) s
                [WriteThenReadInto (eeprom_device self) [address_byte a] (length c)]).
    { rewrite _write_page_ok by (try assumption; lia).
      destruct (list_eq_dec _ _ c) as [_|Hne]; [reflexivity|].
      exfalso. apply Hne. apply holds_read; [assumption|lia|assumption]. }
    cbn [write_pages]. unfold bind. rewrite Hpage. cbn [res st evs].
    rewrite (IH (a + len c) rest s Hrest ltac:(lia) ltac:(lia) Hhrest).
    reflexivity.
Qed.

(** ** [_write] on a valid range *)

Lemma len_pos_inv (data : list byte) : 1 <= len data -> data <> [].
Proof. intros H ->. change (len []) with 0 in H. lia. Qed.

Lemma _write_post (self : AT24MAC) (a : Z) (data : list byte) (s : store) :
  0 <= a -> 1 <= len data -> a + len data <= 256 ->
  res (_write self a (PBytes data) s) = Ok tt /\
  holds (st (_write self a (PBytes data) s) (eeprom_device self)) a data /\
  (forall x, x < a \/ a + len data <= x ->
     st (_write self a (PBytes data) s) (eeprom_device self) x =
     s (eeprom_device self) x) /\
  (forall d, d <> eeprom_device self ->
     st (_write self a (PBytes data) s) d = s d) /\
  Forall within_one_page (evs (_write self a (PBytes data) s)).
Proof.
  intros Ha Hlen Hfit. pose proof (len_pos_inv data Hlen) as Hdata.
  rewrite _write_split_plan by lia.
  apply write_pages_post; try assumption.
  - now apply split_plan_tiles.
  - now apply split_plan_fits.
Qed.

Lemma _write_then__read (self : AT24MAC) (a : Z) (data : list byte) (s : store) :
  0 <= a -> 1 <= len data -> a + len data <= 256 ->
  res (_write self a (PBytes data) s) = Ok tt /\
  res (_read self a (len data) (st (_write self a (PBytes data) s)))
  = Ok (match data with
        | [item] => VInt item
        | _ => VBytes data
        end).
Proof.
  intros Ha Hlen Hfit.
  destruct (_write_post self a data s Ha Hlen Hfit) as (Hres & Hholds & _).
  split; [assumption|].
  rewrite _read_ok by lia. cbn [res].
  apply holds_read in Hholds; [|lia|lia].
  replace (Z.to_nat (len data)) with (length data) by (unfold len; lia).
  rewrite !Hholds.
  destruct data as [|b0 [|b1 data']].
  - change (len []) with 0 in Hlen. lia.
  - reflexivity.
  - destruct (Z.ltb_spec 1 (len (b0 :: b1 :: data'))) as [_|H]; [reflexivity|].
    unfold len in H. cbn [length] in H. lia.
Qed.

Lemma tiles_concat (plan : list (Z * list byte)) :
  forall a data, tiles a data plan -> concat (map snd plan) = data.
Proof.
  induction plan as [|[a' c] plan IH]; intros a data H; cbn [tiles] in H.
  - now subst.
  - destruct H as (_ & _ & Hfirst & Hrest).
    cbn [map snd concat]. rewrite (IH _ _ Hrest).
    rewrite <- Hfirst at 1. apply firstn_skipn.
Qed.

(** ** Payloads other than [bytes] *)

Lemma bytearray_of_pure (l : list Z) (s : store) :
  st (bytearray_of l s) = s /\ evs (bytearray_of l s) = [].
Proof.
  revert s. induction l as [|v l IH]; intros s; [now split|].
  cbn [bytearray_of].
  destruct ((v <? 0) || (255 <? v)) eqn:E; [now split|].
  apply orb_false_elim in E. destruct E as [E1 E2].
  apply Z.ltb_ge in E1, E2.
  destruct (IH s) as [Hst Hevs].
  unfold bind. rewrite to_bytes_ok by lia. cbn [res st evs].
  destruct (res (bytearray_of l s)); cbn [res st evs app];
    rewrite ?Hst, ?Hevs; now split.
Qed.

Lemma coerce_pure (p : payload) (s : store) :
  st (coerce p s) = s /\ evs (coerce p s) = [].
Proof.
  destruct p as [d|v|l]; cbn [coerce].
  - now split.
  - destruct ((0 <=? v) && (v <=? 255)) eqn:E; [|now split].
    apply andb_prop in E. destruct E as [E1 E2].
    apply Z.leb_le in E1, E2. rewrite to_bytes_ok by lia. now split.
  - apply bytearray_of_pure.
Qed.

Lemma _write_payload (self : AT24MAC) (a : Z) (p : payload) (d : list byte)
      (s : store) :
  res (coerce p s) = Ok d -> _write self a p s = _write self a (PBytes d) s.
Proof.
  intros H. destruct (coerce_pure p s) as [Hst Hevs].
  unfold _write. unfold bind at 1. rewrite H, Hst, Hevs. reflexivity.
Qed.

(** ** Which device the byte store talks to *)

Lemma evs_bind_Forall {A B} (P : event -> Prop) (m : M A) (f : A -> M B)
      (s : store) :
  Forall P (evs (m s)) -> (forall a s', Forall P (evs (f a s'))) ->
  Forall P (evs (bind m f s)).
Proof.
  intros Hm Hf. unfold bind.
  destruct (res (m s)); cbn [evs]; [|assumption].
  apply Forall_app. split; [assumption|apply Hf].
Qed.

Lemma _read_on_device (self : AT24MAC) (a n : Z) (s : store) :
  Forall (on_device (eeprom_device self)) (evs (_read self a n s)).
Proof.
  unfold _read. destruct (_EEPROM_LENGTH <? n + a); [constructor|].
  apply evs_bind_Forall.
  { unfold bytearray. destruct (n <? 0); constructor. }
  intros buf s1. apply evs_bind_Forall.
  { unfold to_bytes. destruct (a <? 0); [constructor|].
    destruct (Byte.of_N (Z.to_N a)); constructor. }
  intros out s2. apply evs_bind_Forall.
  { constructor; [reflexivity|constructor]. }
  intros got s3. destruct (1 <? n); [constructor|].
  destruct got; constructor.
Qed.

Lemma _write_page_on_device (self : AT24MAC) (a : Z) (c : list byte) (s : store) :
  Forall (on_device (eeprom_device self)) (evs (_write_page self a c s)).
Proof.
  unfold _write_page. apply evs_bind_Forall.
  { unfold _does_data_match. apply evs_bind_Forall; [apply _read_on_device|].
    intros v s1. apply evs_bind_Forall; [|constructor].
    destruct (len c =? 1); [|constructor]. destruct v; constructor. }
  intros matches s1. destruct (negb matches); [|constructor].
  apply evs_bind_Forall.
  { unfold to_bytes. destruct (a <? 0); [constructor|].
    destruct (Byte.of_N (Z.to_N a)); constructor. }
  intros out s2. apply evs_bind_Forall.
  { constructor; [reflexivity|constructor]. }
  intros _ s3. constructor; [exact I|constructor].
Qed.

Lemma _write_loop_on_device (self : AT24MAC) (data : list byte)
      (indices : list Z) :
  forall (cur : Z) (s : store),
    Forall (on_device (eeprom_device self))
           (evs (_write_loop self data indices cur s)).
Proof.
  induction indices as [|i indices IH]; intros cur s; [constructor|].
  cbn [_write_loop]. apply evs_bind_Forall; [apply _write_page_on_device|].
  intros _ s'. apply IH.
Qed.

Lemma _write_on_device (self : AT24MAC) (a : Z) (p : payload) (s : store) :
  Forall (on_device (eeprom_device self)) (evs (_write self a p s)).
Proof.
  unfold _write. apply evs_bind_Forall.
  { destruct (coerce_pure p s) as [_ ->]. constructor. }
  intros data s1. destruct (_EEPROM_LENGTH <? len data + a); [constructor|].
  destruct (if 1 <? len data then _ else _) as [[total_pages remaining] offset].
  apply evs_bind_Forall.
  { destruct (0 <? offset); [|constructor].
    apply evs_bind_Forall; [apply _write_page_on_device|]. intros; constructor. }
  intros cur s2. apply evs_bind_Forall.
  { destruct (0 <? total_pages); [apply _write_loop_on_device|constructor]. }
  intros cur' s3. destruct (0 <? remaining);
    [apply _write_page_on_device|constructor].
Qed.

Lemma slice_start_pure (start : option Z) (s : store) :
  st (slice_start start s) = s /\ evs (slice_start start s) = [].
Proof.
  destruct start as [v|]; cbn [slice_start]; [|now split].
  destruct ((v <? 0) || (_EEPROM_LENGTH <=? v)); now split.
Qed.

Lemma slice_stop_pure (stop : option Z) (s : store) :
  st (slice_stop stop s) = s /\ evs (slice_stop stop s) = [].
Proof.
  destruct stop as [v|]; cbn [slice_stop]; [|now split].
  destruct ((v <? 0) || (_EEPROM_LENGTH <=? v)); now split.
Qed.

Lemma __getitem___on_device (self : AT24MAC) (k : key) (s : store) :
  Forall (on_device (eeprom_device self)) (evs (__getitem__ self k s)).
Proof.
  destruct k as [a|start stop step|]; cbn [__getitem__].
  - apply _read_on_device.
  - apply evs_bind_Forall.
    { destruct (slice_start_pure start s) as [_ ->]. constructor. }
    intros v s1. apply evs_bind_Forall.
    { destruct (slice_stop_pure stop s1) as [_ ->]. constructor. }
    intros w s2. apply _read_on_device.
  - constructor.
Qed.

Lemma __setitem___on_device (self : AT24MAC) (k : key) (p : payload) (s : store) :
  Forall (on_device (eeprom_device self)) (evs (__setitem__ self k p s)).
Proof.
  destruct k as [a|start stop step|]; cbn [__setitem__].
  - apply _write_on_device.
  - apply evs_bind_Forall.
    { destruct (slice_start_pure start s) as [_ ->]. constructor. }
    intros v s1. apply evs_bind_Forall.
    { destruct (slice_stop_pure stop s1) as [_ ->]. constructor. }
    intros w s2. apply _write_on_device.
  - constructor.
Qed.

(** ** The events of a write, page by page *)

Lemma tiles_bounds (plan : list (Z * list byte)) :
  forall a data, tiles a data plan ->
    Forall (fun c => a <= fst c /\ fst c + len (snd c) <= a + len data) plan.
Proof.
  induction plan as [|[a' c] plan IH]; intros a data H; [constructor|].
  cbn [tiles] in H. destruct H as (-> & Hc & Hfirst & Hrest).
  pose proof (firstn_skipn (length c) data) as Hsplit. rewrite Hfirst in Hsplit.
  assert (Hlen : len data = len c + len (skipn (length c) data))
    by (rewrite <- Hsplit at 1; apply len_app).
  pose proof (len_nonneg (skipn (length c) data)).
  pose proof (len_nonneg c).
  constructor; [cbn [fst snd]; lia|].
  specialize (IH _ _ Hrest).
  eapply Forall_impl; [|exact IH]. cbn beta. intros x Hx. lia.
Qed.

Lemma sequential_read_ext (m m' : memory) (a : Z) (n : nat) :
  0 <= a -> a + Z.of_nat n <= 256 ->
  (forall x, a <= x < a + Z.of_nat n -> m x = m' x) ->
  sequential_read m a n = sequential_read m' a n.
Proof.
  intros Ha Hfit H. unfold sequential_read. apply map_ext_in.
  intros i Hi. apply in_seq in Hi.
  rewrite Z.mod_small by lia. apply H. lia.
Qed.

Lemma page_events_ext (self : AT24MAC) (s s' : store) (lo : Z)
      (plan : list (Z * list byte)) :
  0 <= lo ->
  (forall x, lo <= x -> s' (eeprom_device self) x = s (eeprom_device self) x) ->
  Forall (fun c => lo <= fst c /\ fst c + len (snd c) <= 256) plan ->
  flat_map (page_events self s') plan = flat_map (page_events self s) plan.
Proof.
  intros Hlo Hsame Hplan. induction Hplan as [|c plan [Hc Hfit] _ IH];
    [reflexivity|].
  cbn [flat_map]. rewrite IH. f_equal.
  unfold page_events, already_holds.
  rewrite (sequential_read_ext (s' (eeprom_device self)) (s (eeprom_device self))
             (fst c) (length (snd c)));
    [reflexivity | lia | unfold len in Hfit; lia |].
  intros x Hx. apply Hsame. lia.
Qed.

Lemma write_pages_events (self : AT24MAC) (plan : list (Z * list byte)) :
  forall (a : Z) (data : list byte) (s : store),
    tiles a data plan -> Forall fits_page plan ->
    0 <= a -> a + len data <= 256 ->
    evs (write_pages self plan s) = flat_map (page_events self s) plan.
Proof.
  induction plan as [|[a' c] plan IH]; intros a data s Htiles Hfits Ha Hfit;
    [reflexivity|].
  pose proof (tiles_bounds _ _ _ Htiles) as Hbounds.
  cbn [tiles] in Htiles. destruct Htiles as (-> & Hc & Hfirst & Hrest).
  inversion Hfits as [|? ? [_ Hpage] Hfits']; subst. cbn [fst snd] in Hpage.
  inversion Hbounds as [|? ? [_ Hc256] _]; subst. cbn [fst snd] in Hc256.
  pose proof (tiles_bounds _ _ _ Hrest) as Hbounds'.
  pose proof (firstn_skipn (length c) data) as Hsplit. rewrite Hfirst in Hsplit.
  remember (skipn (length c) data) as rest eqn:Erest.
  assert (Hlen : len data = len c + len rest)
    by (rewrite <- Hsplit; apply len_app).
  clear Erest Hsplit Hfirst.
  pose proof (len_nonneg rest) as Hnn. pose proof (len_pos c Hc) as Hcpos.
  destruct (_write_page_post self a c s Hc Ha ltac:(lia) Hpage)
    as (Hres1 & _ & Hframe1 & _).
  cbn [write_pages]. rewrite (bind_run _ _ _ tt Hres1). cbn [evs flat_map].
  rewrite (IH (a + len c) rest _ Hrest Hfits' ltac:(lia) ltac:(lia)).
  f_equal.
  - rewrite _write_page_ok by (try assumption; lia).
    unfold page_events, already_holds. cbn [fst snd].
    now destruct (list_eq_dec _ _ c).
  - apply page_events_ext with (lo := a + len c); [lia| |].
    + intros x Hx. apply Hframe1. lia.
    + eapply Forall_impl; [|exact Hbounds']. cbn beta. intros x Hx. lia.
Qed.

Lemma _write_events (self : AT24MAC) (a : Z) (data : list byte) (s : store) :
  0 <= a -> 1 <= len data -> a + len data <= 256 ->
  evs (_write self a (PBytes data) s)
  = flat_map (page_events self s) (split_plan a data).
Proof.
  intros Ha Hlen Hfit. pose proof (len_pos_inv data Hlen) as Hdata.
  rewrite _write_split_plan by lia.
  apply write_pages_events with (a := a) (data := data); try assumption.
  - now apply split_plan_tiles.
  - now apply split_plan_fits.
Qed.

(** * The specification's claims *)

(** ** Round trip *)

(** C1, as stated, fails on the code: for the empty range [[0, 0)] both the
    write and the read raise [IndexError] ([data_bytes[0]] of an empty
    buffer), and a read of one byte returns the item itself, not a
    sequence. *)
Lemma C1_empty_range_raises :
  res (_write board 0 (PBytes []) blank) = Raise IndexError /\
  res (_read board 0 (0 - 0) blank) = Raise IndexError /\
  res (_read board 0 (1 - 0) (st (_write board 0 (PBytes [x2a]) blank)))
  = Ok (VInt x2a).
Proof. repeat split; reflexivity. Qed.

(** C1 (amended): for every range [[a, e)] with [0 <= a < e <= 256] and
    every [data] of [e - a] bytes, [_write] of [data] at [a] succeeds, and
    [_read] of [[a, e)] then returns [data]: as a [bytearray] when
    [e - a >= 2], as the single item when [e - a = 1]. *)
Theorem write_then_read_roundtrip (self : AT24MAC) (s : store) (a e : Z)
        (data : list byte) :
  0 <= a -> a < e -> e <= 256 -> len data = e - a ->
  res (_write self a (PBytes data) s) = Ok tt /\
  res (_read self a (e - a) (st (_write self a (PBytes data) s)))
  = Ok (match data with
        | [item] => VInt item
        | _ => VBytes data
        end).
Proof.
  intros Ha Hlt He Hlen. rewrite <- Hlen.
  apply _write_then__read; lia.
Qed.

Lemma write_then_read_roundtrip_witness :
  res (_write board 10 (PBytes twenty) blank) = Ok tt /\
  res (_read board 10 (30 - 10) (st (_write board 10 (PBytes twenty) blank)))
  = Ok (VBytes twenty).
Proof.
  apply (write_then_read_roundtrip board blank 10 30 twenty);
    [lia | lia | lia | reflexivity].
Defined.

(** ** Page boundaries *)

(** C2: for every write of [L >= 1] bytes at [a] with [a + L <= 256] (any
    alignment of [a], any number of pages), each [Write] transaction
    [_write] issues commits bytes of a single page
    [[k*16, (k+1)*16)]. *)
Theorem writes_stay_within_one_page (self : AT24MAC) (s : store) (a : Z)
        (data : list byte) :
  0 <= a -> 1 <= len data -> a + len data <= _EEPROM_LENGTH ->
  Forall within_one_page (evs (_write self a (PBytes data) s)).
Proof.
  intros Ha Hlen Hfit. now apply _write_post.
Qed.

Lemma writes_stay_within_one_page_witness :
  Forall within_one_page (evs (_write board 10 (PBytes twenty) blank)).
Proof.
  apply (writes_stay_within_one_page board blank 10 twenty);
    [lia | vm_compute; discriminate | vm_compute; discriminate].
Defined.

(** ** Wear reduction *)

Lemma forallb_comparison_reads (d : Z) (plan : list (Z * list byte)) :
  forallb is_comparison_read
    (map (fun c => WriteThenReadInto d [address_byte (fst c)] (length (snd c)))
         plan) = true.
Proof. induction plan; [reflexivity|assumption]. Qed.

Lemma filter_comparison_reads (f : event -> bool) (d : Z)
      (plan : list (Z * list byte)) :
  (forall a out n, f (WriteThenReadInto a out n) = false) ->
  filter f
    (map (fun c => WriteThenReadInto d [address_byte (fst c)] (length (snd c)))
         plan) = [].
Proof.
  intros Hf. induction plan; [reflexivity|]. cbn [map filter]. now rewrite Hf.
Qed.

(** C3: a page write reads the target bytes first and, when they equal the
    payload, issues neither the [Write] nor the [Sleep]; and writing the
    same bytes to the same valid range a second time succeeds, leaves the
    store as it is, and issues comparison reads only. *)
Theorem second_write_is_idle (self : AT24MAC) (s : store) (a : Z)
        (data : list byte) :
  0 <= a -> 1 <= len data -> a + len data <= _EEPROM_LENGTH ->
  _write_page self a data s =
    (if already_holds s (eeprom_device self) a data
     then mkOutcome (Ok tt) s
            [WriteThenReadInto (eeprom_device self) [address_byte a] (length data)]
     else mkOutcome (Ok tt)
            (device_write s (eeprom_device self) (address_byte a :: data))
            [WriteThenReadInto (eeprom_device self) [address_byte a] (length data);
             Write (eeprom_device self) (address_byte a :: data);
             Sleep _WRITE_TIME]) /\
  res (_write self a (PBytes data) (st (_write self a (PBytes data) s))) = Ok tt /\
  st (_write self a (PBytes data) (st (_write self a (PBytes data) s)))
  = st (_write self a (PBytes data) s) /\
  forallb is_comparison_read
    (evs (_write self a (PBytes data) (st (_write self a (PBytes data) s))))
  = true /\
  filter is_write
    (evs (_write self a (PBytes data) (st (_write self a (PBytes data) s))))
  = [] /\
  filter is_sleep
    (evs (_write self a (PBytes data) (st (_write self a (PBytes data) s))))
  = [].
Proof.
  intros Ha Hlen Hfit. unfold _EEPROM_LENGTH in Hfit.
  pose proof (len_pos_inv data Hlen) as Hdata.
  split.
  { rewrite _write_page_ok by assumption. unfold already_holds.
    now destruct (list_eq_dec _ _ data). }
  destruct (_write_post self a data s Ha Hlen Hfit) as (_ & Hholds & _).
  set (s1 := st (_write self a (PBytes data) s)) in *.
  rewrite _write_split_plan by lia.
  rewrite (write_pages_idle self (split_plan a data) a data s1
             (split_plan_tiles a data Hdata) Ha Hfit Hholds).
  cbn [res st evs]. repeat split.
  - apply forallb_comparison_reads.
  - now apply filter_comparison_reads.
  - now apply filter_comparison_reads.
Qed.

Lemma second_write_is_idle_witness :
  st (_write board 10 (PBytes twenty) (st (_write board 10 (PBytes twenty) blank)))
  = st (_write board 10 (PBytes twenty) blank) /\
  filter is_write
    (evs (_write board 10 (PBytes twenty)
            (st (_write board 10 (PBytes twenty) blank)))) = [].
Proof.
  destruct (second_write_is_idle board blank 10 twenty)
    as (_ & _ & Hst & _ & Hw & _);
    [lia | vm_compute; discriminate | vm_compute; discriminate |].
  split; [exact Hst | exact Hw].
Defined.

(** ** The decomposition into page writes *)

(** C5: for every [a >= 0] and payload of [L >= 1] bytes with
    [a + L <= 256], [_write] is the sequence of page writes [split_plan]
    lists; their chunks are non-empty, concatenate to the payload in order,
    and lie at consecutive addresses from [a] on, so each payload byte is
    written once, at its own address; afterwards the array holds the
    payload at [a .. a+L-1] and is unchanged elsewhere, and the events
    issued are those of these page writes, one after the other.  This
    covers the cases where [remaining_bytes] is zero or negative. *)
Theorem each_byte_written_once (self : AT24MAC) (s : store) (a : Z)
        (data : list byte) :
  0 <= a -> 1 <= len data -> a + len data <= _EEPROM_LENGTH ->
  _write self a (PBytes data) s = write_pages self (split_plan a data) s /\
  tiles a data (split_plan a data) /\
  concat (map snd (split_plan a data)) = data /\
  res (_write self a (PBytes data) s) = Ok tt /\
  holds (st (_write self a (PBytes data) s) (eeprom_device self)) a data /\
  (forall x, x < a \/ a + len data <= x ->
     st (_write self a (PBytes data) s) (eeprom_device self) x =
     s (eeprom_device self) x) /\
  evs (_write self a (PBytes data) s)
  = flat_map (page_events self s) (split_plan a data).
Proof.
  intros Ha Hlen Hfit. unfold _EEPROM_LENGTH in Hfit.
  pose proof (len_pos_inv data Hlen) as Hdata.
  pose proof (split_plan_tiles a data Hdata) as Htiles.
  destruct (_write_post self a data s Ha Hlen Hfit) as (Hres & Hholds & Hframe & _).
  split; [apply _write_split_plan; lia|].
  split; [assumption|].
  split; [now apply tiles_concat with (a := a)|].
  split; [assumption|]. split; [assumption|]. split; [assumption|].
  now apply _write_events.
Qed.

Lemma each_byte_written_once_witness :
  _write board 10 (PBytes twenty) blank
  = write_pages board (split_plan 10 twenty) blank /\
  concat (map snd (split_plan 10 twenty)) = twenty.
Proof.
  destruct (each_byte_written_once board blank 10 twenty)
    as (Hw & _ & Hc & _);
    [lia | vm_compute; discriminate | vm_compute; discriminate |].
  split; [exact Hw | exact Hc].
Defined.

(** ** Twenty bytes at address 10 *)

(** C4, as stated, fails on the code: on a blank part, writing twenty bytes
    at address 10 issues two page writes, not three: 6 bytes at 10..15 and
    the other 14 bytes at 16..29; there is no separate tail write. *)
Lemma C4_two_page_writes_not_three :
  evs (_write board 10 (PBytes twenty) blank)
  = [WriteThenReadInto 0x54 [x0a] 6;
     Write 0x54 (x0a :: firstn 6 twenty);
     Sleep _WRITE_TIME;
     WriteThenReadInto 0x54 [x10] 14;
     Write 0x54 (x10 :: skipn 6 twenty);
     Sleep _WRITE_TIME] /\
  length (filter is_write (evs (_write board 10 (PBytes twenty) blank))) <> 3%nat /\
  length (filter is_comparison_read (evs (_write board 10 (PBytes twenty) blank)))
  <> 3%nat.
Proof. repeat split; vm_compute; discriminate. Qed.

(** C4 (amended): writing any twenty bytes at address 10 performs exactly
    two page writes, in order: the first 6 bytes at 10..15, which complete
    page 0, then the remaining 14 bytes at 16..29, from the start of
    page 1.  Each begins with its comparison read and issues its [Write]
    unless the array already holds the chunk; each [Write] lies within one
    page. *)
Theorem twenty_bytes_at_ten (self : AT24MAC) (s : store) (data : list byte) :
  length data = 20%nat ->
  split_plan 10 data = [(10, firstn 6 data); (16, skipn 6 data)] /\
  _write self 10 (PBytes data) s
  = write_pages self [(10, firstn 6 data); (16, skipn 6 data)] s /\
  filter is_comparison_read (evs (_write self 10 (PBytes data) s))
  = [WriteThenReadInto (eeprom_device self) [x0a] 6;
     WriteThenReadInto (eeprom_device self) [x10] 14] /\
  filter is_write (evs (_write self 10 (PBytes data) s))
  = (if already_holds s (eeprom_device self) 10 (firstn 6 data) then []
     else [Write (eeprom_device self) (x0a :: firstn 6 data)])
    ++ (if already_holds s (eeprom_device self) 16 (skipn 6 data) then []
        else [Write (eeprom_device self) (x10 :: skipn 6 data)]) /\
  Forall within_one_page (evs (_write self 10 (PBytes data) s)).
Proof.
  intros Hlen.
  assert (Hplan : split_plan 10 data = [(10, firstn 6 data); (16, skipn 6 data)]).
  { do 20 (destruct data as [|? data]; [discriminate Hlen|]).
    destruct data; [reflexivity|discriminate Hlen]. }
  assert (Hl : len data = 20) by (unfold len; lia).
  split; [assumption|].
  split; [rewrite _write_split_plan by lia; now rewrite Hplan|].
  assert (Hin : Forall within_one_page (evs (_write self 10 (PBytes data) s)))
    by (apply _write_post; lia).
  rewrite _write_events in * by lia. rewrite Hplan in *.
  cbn [flat_map page_events fst snd app] in *.
  rewrite length_firstn, length_skipn, Hlen in *.
  change (address_byte 10) with x0a in *.
  change (address_byte 16) with x10 in *.
  split; [|split].
  - destruct (already_holds s _ 10 _), (already_holds s _ 16 _); reflexivity.
  - destruct (already_holds s _ 10 _), (already_holds s _ 16 _); reflexivity.
  - exact Hin.
Qed.

Lemma twenty_bytes_at_ten_witness :
  split_plan 10 twenty = [(10, firstn 6 twenty); (16, skipn 6 twenty)] /\
  filter is_comparison_read (evs (_write board 10 (PBytes twenty) blank))
  = [WriteThenReadInto (eeprom_device board) [x0a] 6;
     WriteThenReadInto (eeprom_device board) [x10] 14].
Proof.
  destruct (twenty_bytes_at_ten board blank twenty) as (Hp & _ & Hr & _);
    [reflexivity|].
  split; [exact Hp | exact Hr].
Defined.

(** ** Indexing: the bound checks *)

Lemma slice_start_ok (v : Z) (s : store) :
  0 <= v < 256 -> slice_start (Some v) s = mkOutcome (Ok v) s [].
Proof.
  intros H. unfold slice_start, _EEPROM_LENGTH.
  destruct (Z.ltb_spec v 0); [lia|]. destruct (Z.leb_spec 256 v); [lia|].
  reflexivity.
Qed.

Lemma slice_stop_ok (v : Z) (s : store) :
  0 <= v < 256 -> slice_stop (Some v) s = mkOutcome (Ok v) s [].
Proof.
  intros H. unfold slice_stop, _EEPROM_LENGTH.
  destruct (Z.ltb_spec v 0); [lia|]. destruct (Z.leb_spec 256 v); [lia|].
  reflexivity.
Qed.

Lemma slice_stop_beyond (v : Z) (s : store) :
  v < 0 \/ 256 <= v ->
  slice_stop (Some v) s = mkOutcome (Raise (ValueError StopBeyondLimit)) s [].
Proof.
  intros H. unfold slice_stop, _EEPROM_LENGTH.
  destruct (Z.ltb_spec v 0); [reflexivity|].
  destruct (Z.leb_spec 256 v); [reflexivity|lia].
Qed.

Lemma bind_pure {A B} (m : M A) (f : A -> M B) (s : store) (a : A) :
  m s = mkOutcome (Ok a) s [] -> bind m f s = f a s.
Proof. unfold bind. intros ->. reflexivity. Qed.

Lemma __getitem___slice (self : AT24MAC) (start stop : Z) (step : option Z)
      (s : store) :
  0 <= start < 256 -> 0 <= stop < 256 ->
  __getitem__ self (KSlice (Some start) (Some stop) step) s
  = _read self start (stop - start) s.
Proof.
  intros H1 H2. cbn [__getitem__].
  rewrite (bind_pure _ _ _ _ (slice_start_ok start s H1)).
  now rewrite (bind_pure _ _ _ _ (slice_stop_ok stop s H2)).
Qed.

Lemma __getitem___to_the_end (self : AT24MAC) (start : Z) (step : option Z)
      (s : store) :
  0 <= start < 256 ->
  __getitem__ self (KSlice (Some start) None step) s
  = _read self start (256 - start) s.
Proof.
  intros H1. cbn [__getitem__].
  now rewrite (bind_pure _ _ _ _ (slice_start_ok start s H1)).
Qed.

Lemma __setitem___slice (self : AT24MAC) (start stop : Z) (step : option Z)
      (p : payload) (s : store) :
  0 <= start < 256 -> 0 <= stop < 256 ->
  __setitem__ self (KSlice (Some start) (Some stop) step) p s
  = _write self start p s.
Proof.
  intros H1 H2. cbn [__setitem__].
  rewrite (bind_pure _ _ _ _ (slice_start_ok start s H1)).
  now rewrite (bind_pure _ _ _ _ (slice_stop_ok stop s H2)).
Qed.

Lemma __setitem___to_the_end (self : AT24MAC) (start : Z) (step : option Z)
      (p : payload) (s : store) :
  0 <= start < 256 ->
  __setitem__ self (KSlice (Some start) None step) p s = _write self start p s.
Proof.
  intros H1. cbn [__setitem__].
  now rewrite (bind_pure _ _ _ _ (slice_start_ok start s H1)).
Qed.

Lemma stop_at_capacity_rejected (self : AT24MAC) (start step : option Z)
      (p : payload) (s : store) :
  exists m,
    __getitem__ self (KSlice start (Some 256) step) s
    = mkOutcome (Raise (ValueError m)) s [] /\
    __setitem__ self (KSlice start (Some 256) step) p s
    = mkOutcome (Raise (ValueError m)) s [].
Proof.
  cbn [__getitem__ __setitem__].
  destruct start as [v|]; cbn [slice_start].
  - destruct ((v <? 0) || (_EEPROM_LENGTH <=? v)).
    + exists StartBeyondLimit. now split.
    + exists StopBeyondLimit. now split.
  - exists StopBeyondLimit. now split.
Qed.

Lemma slice_start_accepted (start : option Z) (s : store) :
  accepted start -> slice_start start s = mkOutcome (Ok (bound_or 0 start)) s [].
Proof.
  destruct start as [v|]; [apply slice_start_ok | reflexivity].
Qed.

Lemma slice_stop_accepted (stop : option Z) (s : store) :
  accepted stop ->
  slice_stop stop s = mkOutcome (Ok (bound_or _EEPROM_LENGTH stop)) s [].
Proof.
  destruct stop as [v|]; [apply slice_stop_ok | reflexivity].
Qed.

Lemma __getitem___accepted (self : AT24MAC) (start stop step : option Z)
      (s : store) :
  accepted start -> accepted stop ->
  __getitem__ self (KSlice start stop step) s
  = _read self (bound_or 0 start)
          (bound_or _EEPROM_LENGTH stop - bound_or 0 start) s.
Proof.
  intros H1 H2. cbn [__getitem__].
  rewrite (bind_pure _ _ _ _ (slice_start_accepted start s H1)).
  now rewrite (bind_pure _ _ _ _ (slice_stop_accepted stop s H2)).
Qed.

Lemma __setitem___accepted (self : AT24MAC) (start stop step : option Z)
      (p : payload) (s : store) :
  accepted start -> accepted stop ->
  __setitem__ self (KSlice start stop step) p s
  = _write self (bound_or 0 start) p s.
Proof.
  intros H1 H2. cbn [__setitem__].
  rewrite (bind_pure _ _ _ _ (slice_start_accepted start s H1)).
  now rewrite (bind_pure _ _ _ _ (slice_stop_accepted stop s H2)).
Qed.

Lemma _read_negative_length (self : AT24MAC) (a n : Z) (s : store) :
  n < 0 -> a + n <= 256 ->
  _read self a n s = mkOutcome (Raise NegativeCount) s [].
Proof.
  intros Hn Hfit. unfold _read, _EEPROM_LENGTH.
  destruct (Z.ltb_spec 256 (n + a)); [lia|].
  unfold bind, bytearray. destruct (Z.ltb_spec n 0); [reflexivity|lia].
Qed.

Lemma _read_value (self : AT24MAC) (a n : Z) (s : store) :
  0 <= a -> 1 <= n -> a + n <= 256 ->
  res (_read self a n s)
  = Ok (match sequential_read (s (eeprom_device self)) a (Z.to_nat n) with
        | [item] => VInt item
        | data_bytes => VBytes data_bytes
        end).
Proof.
  intros Ha Hn Hfit. rewrite _read_ok by lia. cbn [res].
  pose proof (sequential_read_length (s (eeprom_device self)) a (Z.to_nat n)) as Hl.
  destruct (sequential_read _ a (Z.to_nat n)) as [|b0 [|b1 l]]; cbn [length] in Hl.
  - lia.
  - destruct (Z.ltb_spec 1 n); [lia|reflexivity].
  - destruct (Z.ltb_spec 1 n); [reflexivity|lia].
Qed.

(** A ranged write followed by the ranged read of the same slice gives the
    payload back, for an explicit stop below 256 and for an omitted stop. *)
Lemma slice_roundtrip (self : AT24MAC) (s : store) (start : Z)
      (stop step : option Z) (data : list byte) :
  0 <= start < 256 ->
  match stop with Some e => start < e < 256 | None => True end ->
  len data = match stop with Some e => e | None => 256 end - start ->
  res (__setitem__ self (KSlice (Some start) stop step) (PBytes data) s) = Ok tt /\
  res (__getitem__ self (KSlice (Some start) stop step)
         (st (__setitem__ self (KSlice (Some start) stop step) (PBytes data) s)))
  = Ok (match data with
        | [item] => VInt item
        | _ => VBytes data
        end).
Proof.
  intros Hstart Hstop Hlen. destruct stop as [e|].
  - rewrite __setitem___slice, __getitem___slice by lia.
    rewrite <- Hlen. apply _write_then__read; lia.
  - rewrite __setitem___to_the_end, __getitem___to_the_end by lia.
    rewrite <- Hlen. apply _write_then__read; lia.
Qed.

(** ** Stop before start *)

(** C6, as stated, fails on the code: a ranged write whose stop is less
    than its start is carried out, not rejected, and a ranged read whose
    stop equals its start raises [IndexError] after a bus transaction. *)
Lemma C6_stop_before_start_is_written :
  res (__setitem__ board (KSlice (Some 5) (Some 3) None) (PBytes [x01; x02]) blank)
  = Ok tt /\
  filter is_write
    (evs (__setitem__ board (KSlice (Some 5) (Some 3) None)
            (PBytes [x01; x02]) blank))
  = [Write 0x54 [x05; x01; x02]] /\
  res (__getitem__ board (KSlice (Some 5) (Some 5) None) blank) = Raise IndexError /\
  evs (__getitem__ board (KSlice (Some 5) (Some 5) None) blank)
  = [WriteThenReadInto 0x54 [x05] 0].
Proof. repeat split; reflexivity. Qed.

(** C6 (amended): the driver has no check of stop against start.  A ranged
    write whose bounds are both within 0..255 and whose stop is less than
    or equal to its start is the plain write of the whole payload at
    start: for a payload of at least one byte that fits, it succeeds and
    the array then holds the payload from start on.  A ranged read whose
    stop is less than its start fails before any bus transaction, when the
    buffer of negative length is created. *)
Theorem stop_not_compared_with_start (self : AT24MAC) (s : store)
        (start stop : Z) (step : option Z) (data : list byte) :
  0 <= stop -> stop <= start -> start < 256 ->
  1 <= len data -> start + len data <= _EEPROM_LENGTH ->
  __setitem__ self (KSlice (Some start) (Some stop) step) (PBytes data) s
  = _write self start (PBytes data) s /\
  res (__setitem__ self (KSlice (Some start) (Some stop) step) (PBytes data) s)
  = Ok tt /\
  holds (st (__setitem__ self (KSlice (Some start) (Some stop) step)
               (PBytes data) s) (eeprom_device self)) start data /\
  (stop < start ->
   __getitem__ self (KSlice (Some start) (Some stop) step) s
   = mkOutcome (Raise NegativeCount) s []).
Proof.
  intros H0 Hle H256 Hlen Hfit. unfold _EEPROM_LENGTH in Hfit.
  rewrite __setitem___slice by lia.
  destruct (_write_post self start data s ltac:(lia) Hlen Hfit)
    as (Hres & Hholds & _).
  repeat split; try assumption.
  intros Hlt. rewrite __getitem___slice by lia.
  apply _read_negative_length; lia.
Qed.

Lemma stop_not_compared_with_start_witness :
  res (__setitem__ board (KSlice (Some 5) (Some 3) None) (PBytes [x01; x02]) blank)
  = Ok tt /\
  __getitem__ board (KSlice (Some 5) (Some 3) None) blank
  = mkOutcome (Raise NegativeCount) blank [].
Proof.
  destruct (stop_not_compared_with_start board blank 5 3 None [x01; x02])
    as (_ & Hres & _ & Hread);
    [lia | lia | lia | vm_compute; discriminate | vm_compute; discriminate |].
  split; [exact Hres | apply Hread; lia].
Defined.

(** ** Single-byte access *)

Lemma _write_one_byte (self : AT24MAC) (a : Z) (b : byte) (s : store) :
  a + 1 <= 256 ->
  _write self a (PBytes [b]) s = _write_page self a [b] s.
Proof.
  intros Hfit. rewrite _write_split_plan by (change (len [b]) with 1; lia).
  change (split_plan a [b]) with [(a, [b])].
  cbn [write_pages]. apply bind_unit_ret.
Qed.

Lemma _write_page_negative_address (self : AT24MAC) (a : Z) (b : byte) (s : store) :
  a < 0 -> _write_page self a [b] s = mkOutcome (Raise OverflowError) s [].
Proof.
  intros Ha. unfold _write_page, _does_data_match, bind.
  change (len [b]) with 1.
  rewrite _read_negative_address by lia. reflexivity.
Qed.

Lemma single_byte_in_range (self : AT24MAC) (a : Z) (b : byte) (s : store) :
  0 <= a < _EEPROM_LENGTH ->
  __getitem__ self (KInt a) s
  = mkOutcome (Ok (VInt (s (eeprom_device self) a))) s
              [WriteThenReadInto (eeprom_device self) [address_byte a] 1] /\
  res (__setitem__ self (KInt a) (PBytes [b]) s) = Ok tt /\
  st (__setitem__ self (KInt a) (PBytes [b]) s) (eeprom_device self) a = b.
Proof.
  unfold _EEPROM_LENGTH. intros Ha. cbn [__getitem__ __setitem__]. split.
  - rewrite _read_ok by lia.
    change (Z.to_nat 1) with 1%nat. unfold sequential_read.
    cbn [seq map Z.of_nat Z.ltb Z.compare Pos.compare Pos.compare_cont].
    rewrite Z.add_0_r. now rewrite Z.mod_small by lia.
  - destruct (_write_post self a [b] s) as (Hres & Hholds & _);
      [lia | change (len [b]) with 1; lia | change (len [b]) with 1; lia |].
    split; [assumption|].
    specialize (Hholds 0%nat ltac:(cbn; lia)). cbn [nth] in Hholds.
    now rewrite Z.add_0_r in Hholds.
Qed.

Lemma single_byte_beyond (self : AT24MAC) (a : Z) (b : byte) (s : store) :
  _EEPROM_LENGTH <= a ->
  __getitem__ self (KInt a) s
  = mkOutcome (Raise (ValueError (GoBeyondLimit a 1))) s [] /\
  __setitem__ self (KInt a) (PBytes [b]) s
  = mkOutcome (Raise (ValueError (GoBeyondLimit a 1))) s [].
Proof.
  unfold _EEPROM_LENGTH. intros Ha. cbn [__getitem__ __setitem__]. split.
  - apply _read_beyond. lia.
  - unfold _write, coerce. rewrite bind_ret_l. change (len [b]) with 1.
    unfold _EEPROM_LENGTH. destruct (Z.ltb_spec 256 (1 + a)); [reflexivity|lia].
Qed.

(** C7, at the addresses below zero: for every negative integer address
    the single-byte read and the single-byte write end in the
    [OverflowError] of [data_address.to_bytes(1, "big")], with no bus
    transaction: the driver's only check,
    [length + data_address > _EEPROM_LENGTH], passes.  The slice path
    raises the driver's own [ValueError] for the same value as start. *)
Theorem negative_address_overflows (self : AT24MAC) (s : store) (a : Z) (b : byte) :
  a < 0 ->
  __getitem__ self (KInt a) s = mkOutcome (Raise OverflowError) s [] /\
  __setitem__ self (KInt a) (PBytes [b]) s = mkOutcome (Raise OverflowError) s [] /\
  __getitem__ self (KSlice (Some a) None None) s
  = mkOutcome (Raise (ValueError StartBeyondLimit)) s [].
Proof.
  intros Ha. cbn [__getitem__ __setitem__]. repeat split.
  - apply _read_negative_address; lia.
  - rewrite _write_one_byte by lia. now apply _write_page_negative_address.
  - unfold bind, slice_start. destruct (Z.ltb_spec a 0); [reflexivity|lia].
Qed.

Lemma negative_address_overflows_witness :
  __getitem__ board (KInt (-1)) blank = mkOutcome (Raise OverflowError) blank [] /\
  __setitem__ board (KInt (-1)) (PBytes [x00]) blank
  = mkOutcome (Raise OverflowError) blank [].
Proof.
  destruct (negative_address_overflows board blank (-1) x00) as (Hr & Hw & _);
    [lia|].
  split; [exact Hr | exact Hw].
Defined.

(** ** The stop bound *)

(** C9, as stated, fails on the code: its last clause, that the full
    address space is reached only through an omitted stop, does not hold
    for writes, which never use the stop for their extent.  With the
    explicit stop 240, twenty bytes written from 236 fill the array to its
    last cell, and with the explicit stop 1 a payload of 256 bytes written
    from 0 fills the whole array. *)
Lemma C9_explicit_stop_reaches_the_last_cell :
  res (__setitem__ board (KSlice (Some 236) (Some 240) None) (PBytes twenty) blank)
  = Ok tt /\
  st (__setitem__ board (KSlice (Some 236) (Some 240) None) (PBytes twenty) blank)
     0x54 255 = x13 /\
  res (__setitem__ board (KSlice (Some 0) (Some 1) None)
         (PBytes (repeat x00 256)) blank) = Ok tt /\
  st (__setitem__ board (KSlice (Some 0) (Some 1) None)
        (PBytes (repeat x00 256)) blank) 0x54 0 = x00 /\
  st (__setitem__ board (KSlice (Some 0) (Some 1) None)
        (PBytes (repeat x00 256)) blank) 0x54 255 = x00.
Proof. repeat split; vm_compute; reflexivity. Qed.

(** C9 (amended): a ranged read or write whose explicit stop is 256 is
    rejected, with no bus transaction; with the stop omitted the same range
    succeeds: the read returns the bytes from start to the end of the
    array, the write of [256 - start] bytes stores them there.  So a ranged
    read reaches the last cell only with its stop omitted: one that
    succeeds with an explicit stop has that stop below 256 and reads the
    cells before it.  A ranged write does not use its stop for its extent:
    with any explicit stop of 0..255 the write of [256 - start] bytes
    succeeds as well and fills the array to its last cell. *)
Theorem stop_at_capacity_is_rejected (self : AT24MAC) (s : store)
        (start step : option Z) (data : list byte) :
  accepted start -> len data = _EEPROM_LENGTH - bound_or 0 start ->
  __getitem__ self (KSlice start (Some _EEPROM_LENGTH) step) s
  = mkOutcome (Raise (ValueError StopBeyondLimit)) s [] /\
  __setitem__ self (KSlice start (Some _EEPROM_LENGTH) step) (PBytes data) s
  = mkOutcome (Raise (ValueError StopBeyondLimit)) s [] /\
  res (__getitem__ self (KSlice start None step) s)
  = Ok (match sequential_read (s (eeprom_device self)) (bound_or 0 start)
                (Z.to_nat (_EEPROM_LENGTH - bound_or 0 start)) with
        | [item] => VInt item
        | data_bytes => VBytes data_bytes
        end) /\
  res (__setitem__ self (KSlice start None step) (PBytes data) s) = Ok tt /\
  holds (st (__setitem__ self (KSlice start None step) (PBytes data) s)
            (eeprom_device self)) (bound_or 0 start) data /\
  (forall stop v,
     res (__getitem__ self (KSlice start (Some stop) step) s) = Ok v ->
     stop < _EEPROM_LENGTH /\
     evs (__getitem__ self (KSlice start (Some stop) step) s)
     = [WriteThenReadInto (eeprom_device self) [address_byte (bound_or 0 start)]
          (Z.to_nat (stop - bound_or 0 start))]) /\
  (forall stop p,
     res (__setitem__ self (KSlice start (Some stop) step) p s) = Ok tt ->
     stop < _EEPROM_LENGTH) /\
  (forall stop,
     0 <= stop < _EEPROM_LENGTH ->
     res (__setitem__ self (KSlice start (Some stop) step) (PBytes data) s)
     = Ok tt /\
     holds (st (__setitem__ self (KSlice start (Some stop) step) (PBytes data) s)
              (eeprom_device self)) (bound_or 0 start) data).
Proof.
  intros Hstart Hlen.
  assert (Hrange : 0 <= bound_or 0 start < 256)
    by (destruct start; [exact Hstart | cbn; lia]).
  unfold _EEPROM_LENGTH in *.
  assert (Hrej : forall stop, stop < 0 \/ 256 <= stop ->
            slice_stop (Some stop) s
            = mkOutcome (Raise (ValueError StopBeyondLimit)) s [])
    by (intros; now apply slice_stop_beyond).
  split; [|split; [|split; [|split; [|split; [|split; [|split]]]]]].
  - cbn [__getitem__].
    rewrite (bind_pure _ _ _ _ (slice_start_accepted start s Hstart)).
    unfold bind. now rewrite Hrej by lia.
  - cbn [__setitem__].
    rewrite (bind_pure _ _ _ _ (slice_start_accepted start s Hstart)).
    unfold bind. now rewrite Hrej by lia.
  - rewrite __getitem___accepted by (assumption || exact I).
    apply _read_value; cbn [bound_or]; unfold _EEPROM_LENGTH; lia.
  - rewrite __setitem___accepted by (assumption || exact I).
    apply _write_post; lia.
  - rewrite __setitem___accepted by (assumption || exact I).
    apply _write_post; lia.
  - intros stop v H.
    assert (Hstop : 0 <= stop < 256).
    { destruct (Z.lt_ge_cases stop 0) as [Hneg|Hpos];
        [|destruct (Z.lt_ge_cases stop 256) as [Hlt|Hge]; [lia|]];
        exfalso; cbn [__getitem__] in H;
        rewrite (bind_pure _ _ _ _ (slice_start_accepted start s Hstart)) in H;
        unfold bind in H; rewrite Hrej in H by lia; discriminate H. }
    split; [lia|].
    rewrite __getitem___accepted in H |- *
      by (try assumption; unfold accepted, _EEPROM_LENGTH; lia).
    cbn [bound_or] in H |- *.
    destruct (Z.lt_ge_cases (stop - bound_or 0 start) 0) as [Hneg|Hn].
    + rewrite _read_negative_length in H by lia. discriminate H.
    + now rewrite _read_ok by lia.
  - intros stop p. cbn [__setitem__].
    rewrite (bind_pure _ _ _ _ (slice_start_accepted start s Hstart)).
    destruct (Z.lt_ge_cases stop 256) as [|Hge]; [trivial|].
    unfold bind. rewrite Hrej by lia. discriminate.
  - intros stop Hstop.
    rewrite __setitem___accepted
      by (try assumption; unfold accepted, _EEPROM_LENGTH; lia).
    destruct (_write_post self (bound_or 0 start) data s) as (Hres & Hholds & _);
      [lia | lia | lia | now split].
Qed.

Lemma stop_at_capacity_is_rejected_witness :
  __getitem__ board (KSlice (Some 236) (Some 256) None) blank
  = mkOutcome (Raise (ValueError StopBeyondLimit)) blank [] /\
  res (__setitem__ board (KSlice (Some 236) None None) (PBytes twenty) blank)
  = Ok tt.
Proof.
  destruct (stop_at_capacity_is_rejected board blank (Some 236) None twenty)
    as (Hr & _ & _ & Hw & _);
    [unfold accepted, _EEPROM_LENGTH; lia | reflexivity |].
  split; [exact Hr | exact Hw].
Defined.

(** C10, as stated, fails on the code: the stop bound is checked before the
    write, so it does decide whether anything is written (with stop 256
    the five bytes are refused and nothing is written, with stop 102 they
    are written), and an empty payload, shorter than the range, raises
    [IndexError]. *)
Lemma C10_stop_can_refuse_the_write :
  __setitem__ board (KSlice (Some 100) (Some 256) None)
              (PBytes [x06; x07; x08; x09; x0a]) blank
  = mkOutcome (Raise (ValueError StopBeyondLimit)) blank [] /\
  res (__setitem__ board (KSlice (Some 100) (Some 102) None)
         (PBytes [x06; x07; x08; x09; x0a]) blank) = Ok tt /\
  res (__setitem__ board (KSlice (Some 5) (Some 7) None) (PBytes []) blank)
  = Raise IndexError.
Proof. repeat split; reflexivity. Qed.

(** C10 (amended): in a ranged write whose bounds pass their own range
    checks (an explicit bound lies in 0..255), the stop bound plays no
    part: for every payload, any two accepted stops give the same outcome,
    that of the write of the whole payload at start.  For a payload of at
    least one byte with [start + len <= 256] the write succeeds and exactly
    the [len] cells from start on are written, whether that ends before or
    after stop.  An explicit stop outside 0..255 refuses the write, with
    the driver's [ValueError] and no bus transaction. *)
Theorem stop_does_not_bound_the_write (self : AT24MAC) (s : store)
        (start stop stop' step step' : option Z) (data : list byte) :
  accepted start -> accepted stop -> accepted stop' ->
  1 <= len data -> bound_or 0 start + len data <= _EEPROM_LENGTH ->
  (forall p,
     __setitem__ self (KSlice start stop step) p s
     = __setitem__ self (KSlice start stop' step') p s /\
     __setitem__ self (KSlice start stop step) p s
     = _write self (bound_or 0 start) p s) /\
  res (__setitem__ self (KSlice start stop step) (PBytes data) s) = Ok tt /\
  holds (st (__setitem__ self (KSlice start stop step) (PBytes data) s)
            (eeprom_device self)) (bound_or 0 start) data /\
  (forall x, x < bound_or 0 start \/ bound_or 0 start + len data <= x ->
     st (__setitem__ self (KSlice start stop step) (PBytes data) s)
        (eeprom_device self) x
     = s (eeprom_device self) x) /\
  (forall v p, v < 0 \/ _EEPROM_LENGTH <= v ->
     __setitem__ self (KSlice start (Some v) step) p s
     = mkOutcome (Raise (ValueError StopBeyondLimit)) s []).
Proof.
  intros Hstart Hstop Hstop' Hlen Hfit.
  assert (Hrange : 0 <= bound_or 0 start < 256)
    by (destruct start; [exact Hstart | cbn; lia]).
  unfold _EEPROM_LENGTH in Hfit.
  split.
  { intros p. now rewrite !__setitem___accepted by assumption. }
  rewrite __setitem___accepted by assumption.
  destruct (_write_post self (bound_or 0 start) data s ltac:(lia) Hlen Hfit)
    as (Hres & Hholds & Hframe & _).
  do 3 (split; [assumption|]).
  intros v p Hv. unfold _EEPROM_LENGTH in Hv. cbn [__setitem__].
  rewrite (bind_pure _ _ _ _ (slice_start_accepted start s Hstart)).
  unfold bind. now rewrite slice_stop_beyond by assumption.
Qed.

Lemma stop_does_not_bound_the_write_witness :
  __setitem__ board (KSlice (Some 100) (Some 102) None)
              (PBytes [x06; x07; x08; x09; x0a]) blank
  = __setitem__ board (KSlice (Some 100) (Some 110) None)
                (PBytes [x06; x07; x08; x09; x0a]) blank /\
  res (__setitem__ board (KSlice (Some 100) (Some 102) None)
                   (PBytes [x06; x07; x08; x09; x0a]) blank) = Ok tt.
Proof.
  destruct (stop_does_not_bound_the_write board blank (Some 100) (Some 102)
              (Some 110) None None [x06; x07; x08; x09; x0a])
    as (He & Hres & _);
    [unfold accepted, _EEPROM_LENGTH; lia | unfold accepted, _EEPROM_LENGTH; lia
     | unfold accepted, _EEPROM_LENGTH; lia | vm_compute; discriminate
     | vm_compute; discriminate |].
  split; [exact (proj1 (He _)) | exact Hres].
Defined.

(** ** Construction and the identity block *)

Lemma from_bytes_acc (l : list byte) :
  forall acc,
    fold_left (fun acc x => acc * 256 + byte_value x) l acc
    = acc * 256 ^ len l + from_bytes l.
Proof.
  unfold from_bytes. induction l as [|b l IH]; intros acc.
  - change (len []) with 0. cbn [fold_left]. lia.
  - cbn [fold_left]. rewrite IH. rewrite (IH (0 * 256 + byte_value b)).
    replace (len (b :: l)) with (1 + len l) by (unfold len; cbn [length]; lia).
    rewrite Z.pow_add_r by (pose proof (len_nonneg l); lia).
    change (256 ^ 1) with 256. lia.
Qed.

(** Big-endian: the first byte is the most significant. *)
Lemma from_bytes_cons (b : byte) (l : list byte) :
  from_bytes (b :: l) = byte_value b * 256 ^ len l + from_bytes l.
Proof.
  unfold from_bytes at 1. cbn [fold_left]. rewrite from_bytes_acc. lia.
Qed.

Lemma from_bytes_range (l : list byte) : 0 <= from_bytes l < 256 ^ len l.
Proof.
  induction l as [|b l IH].
  - change (len []) with 0. cbv. split; congruence.
  - rewrite from_bytes_cons.
    replace (len (b :: l)) with (1 + len l) by (unfold len; cbn [length]; lia).
    rewrite Z.pow_add_r by (pose proof (len_nonneg l); lia).
    change (256 ^ 1) with 256.
    pose proof (byte_value_range b). nia.
Qed.

(** The byte at index [i] is the base-256 digit of weight
    [256 ^ (len l - 1 - i)]: the first byte is the most significant. *)
Lemma from_bytes_digit (l : list byte) :
  forall i : nat, (i < length l)%nat ->
    from_bytes l / 256 ^ (len l - 1 - Z.of_nat i) mod 256
    = byte_value (nth i l x00).
Proof.
  induction l as [|b l IH]; intros i Hi; [cbn in Hi; lia|].
  rewrite from_bytes_cons.
  replace (len (b :: l)) with (1 + len l) by (unfold len; cbn [length]; lia).
  pose proof (len_nonneg l) as Hn.
  pose proof (from_bytes_range l) as Hr.
  pose proof (byte_value_range b) as Hb.
  assert (Hpow : 0 < 256 ^ len l) by (apply Z.pow_pos_nonneg; lia).
  destruct i as [|j].
  - cbn [nth]. replace (1 + len l - 1 - Z.of_nat 0) with (len l) by lia.
    rewrite Z.div_add_l by lia. rewrite (Z.div_small (from_bytes l)) by lia.
    rewrite Z.add_0_r. apply Z.mod_small. lia.
  - cbn [nth]. cbn [length] in Hi.
    assert (Hj : (j < length l)%nat) by lia.
    specialize (IH j Hj).
    replace (1 + len l - 1 - Z.of_nat (S j)) with (len l - 1 - Z.of_nat j) by lia.
    set (k := len l - 1 - Z.of_nat j) in *.
    assert (Hk : 0 <= k < len l) by (unfold k, len in *; lia).
    assert (Hsplit : 256 ^ len l = 256 * 256 ^ (len l - 1 - k) * 256 ^ k).
    { rewrite <- (Z.pow_1_r 256) at 2.
      rewrite <- !Z.pow_add_r by lia. f_equal. lia. }
    rewrite Hsplit.
    replace (byte_value b * (256 * 256 ^ (len l - 1 - k) * 256 ^ k) + from_bytes l)
      with (byte_value b * 256 ^ (len l - 1 - k) * 256 * 256 ^ k + from_bytes l)
      by ring.
    assert (Hpk : 0 < 256 ^ k) by (apply Z.pow_pos_nonneg; lia).
    rewrite Z.div_add_l by lia.
    rewrite Z.add_comm, Z.mod_add by lia. exact IH.
Qed.

Lemma sequential_read_nth (m : memory) (a : Z) (n i : nat) :
  0 <= a -> a + Z.of_nat n <= 256 -> (i < n)%nat ->
  nth i (sequential_read m a n) x00 = m (a + Z.of_nat i).
Proof.
  intros Ha Hfit Hi. unfold sequential_read.
  rewrite nth_map_seq by assumption. now rewrite Z.mod_small by lia.
Qed.

Lemma devices_differ (address_pins : Z) :
  0 <= address_pins < 8 -> Z.lor 0x50 address_pins <> Z.lor 0x58 address_pins.
Proof.
  intros H.
  assert (address_pins = 0 \/ address_pins = 1 \/ address_pins = 2 \/
          address_pins = 3 \/ address_pins = 4 \/ address_pins = 5 \/
          address_pins = 6 \/ address_pins = 7) as Hcases by lia.
  repeat (destruct Hcases as [->|Hcases]; [discriminate|]).
  subst. discriminate.
Qed.

Lemma on_device_not_other (d d' : Z) (e : event) :
  d <> d' -> on_device d e -> event_device e <> Some d'.
Proof.
  unfold on_device. intros Hd He.
  destruct (event_device e); [|discriminate].
  intros [= ->]. now apply Hd.
Qed.

(** C8: construction issues two write-then-read transactions, and no
    other, both at the bus address [0x58 | address_pins]: six bytes from
    offset [0x9A], kept as they come as [mac] (byte [i] of [mac] is the
    cell [0x9A + i]), then sixteen bytes from offset [0x80], whose
    unsigned big-endian value is [serial_number]: a number of
    [0 .. 2^128 - 1] whose base-256 digit of weight [256 ^ (15 - i)] is the
    cell [0x80 + i], the first byte read being the most significant.
    Afterwards no indexing operation issues a transaction at that
    address. *)
Theorem identity_is_read_at_construction (address_pins : Z) (s : store) :
  0 <= address_pins < 8 ->
  exists self,
    __init__ address_pins s
    = mkOutcome (Ok self) s
        [Probe (Z.lor 0x50 address_pins);
         Probe (Z.lor 0x58 address_pins);
         WriteThenReadInto (Z.lor 0x58 address_pins) [x9a] 6;
         WriteThenReadInto (Z.lor 0x58 address_pins) [x80] 16] /\
    eeprom_device self = Z.lor 0x50 address_pins /\
    eui_device self = Z.lor 0x58 address_pins /\
    mac self = sequential_read (s (Z.lor 0x58 address_pins)) 0x9A 6 /\
    serial_number self
    = from_bytes (sequential_read (s (Z.lor 0x58 address_pins)) 0x80 16) /\
    0 <= serial_number self < 2 ^ 128 /\
    length (mac self) = 6%nat /\
    (forall i : nat, (i < 6)%nat ->
       nth i (mac self) x00 = s (Z.lor 0x58 address_pins) (0x9A + Z.of_nat i)) /\
    (forall i : nat, (i < 16)%nat ->
       serial_number self / 256 ^ (15 - Z.of_nat i) mod 256
       = byte_value (s (Z.lor 0x58 address_pins) (0x80 + Z.of_nat i))) /\
    (forall k s',
       Forall (fun e => event_device e <> Some (eui_device self))
              (evs (__getitem__ self k s'))) /\
    (forall k p s',
       Forall (fun e => event_device e <> Some (eui_device self))
              (evs (__setitem__ self k p s'))).
Proof.
  intros Hpins. eexists. split; [reflexivity|].
  cbn [eeprom_device eui_device mac serial_number].
  do 4 (split; [reflexivity|]).
  split; [|split; [|split; [|split; [|split]]]].
  - apply (from_bytes_range (sequential_read _ 0x80 16)).
  - exact (sequential_read_length _ 0x9A 6).
  - intros i Hi.
    exact (sequential_read_nth _ 0x9A 6 i ltac:(lia) ltac:(lia) Hi).
  - intros i Hi.
    rewrite <- (sequential_read_nth (s (Z.lor 0x58 address_pins)) 0x80 16 i)
      by lia.
    rewrite <- (from_bytes_digit
                  (sequential_read (s (Z.lor 0x58 address_pins)) 0x80 16) i)
      by now rewrite sequential_read_length.
    unfold len. rewrite sequential_read_length.
    change (from_bytes
              (sequential_read (s (Z.lor 0x58 address_pins)) 0x80 16)
            / 256 ^ (15 - Z.of_nat i) mod 256
            = from_bytes
                (sequential_read (s (Z.lor 0x58 address_pins)) 0x80 16)
              / 256 ^ (Z.of_nat 16 - 1 - Z.of_nat i) mod 256).
    do 3 f_equal.
  - intros k s'. eapply Forall_impl; [|apply __getitem___on_device].
    intros e He. revert He. apply on_device_not_other.
    now apply devices_differ.
  - intros k p s'. eapply Forall_impl; [|apply __setitem___on_device].
    intros e He. revert He. apply on_device_not_other.
    now apply devices_differ.
Qed.

Lemma identity_is_read_at_construction_witness :
  exists self,
    __init__ 4 blank
    = mkOutcome (Ok self) blank
        [Probe 0x54; Probe 0x5C;
         WriteThenReadInto 0x5C [x9a] 6;
         WriteThenReadInto 0x5C [x80] 16] /\
    mac self = repeat xff 6.
Proof.
  destruct (identity_is_read_at_construction 4 blank) as (self & Hi & _ & _ & Hm & _);
    [lia|].
  exists self. split; [exact Hi | exact Hm].
Defined.

(** * Further properties of the driver *)

(** ** Payloads *)

Lemma bytearray_of_ok (l : list Z) (s : store) :
  Forall in_byte_range l ->
  bytearray_of l s = mkOutcome (Ok (map address_byte l)) s [].
Proof.
  induction 1 as [|v l Hv _ IH]; [reflexivity|].
  unfold in_byte_range in Hv. cbn [bytearray_of map].
  destruct (Z.ltb_spec v 0); [lia|]. destruct (Z.ltb_spec 255 v); [lia|].
  cbn [orb]. rewrite (bind_pure _ _ _ _ (to_bytes_ok v s ltac:(lia))).
  now rewrite (bind_pure _ _ _ _ IH).
Qed.

Lemma bytearray_of_bad (l : list Z) (s : store) :
  Exists (fun v => ~ in_byte_range v) l ->
  bytearray_of l s = mkOutcome (Raise (ValueError ByteRange)) s [].
Proof.
  induction l as [|v l IH]; intros H; [inversion H|].
  cbn [bytearray_of]. unfold in_byte_range in *.
  destruct (Z.ltb_spec v 0); [reflexivity|].
  destruct (Z.ltb_spec 255 v); [reflexivity|]. cbn [orb].
  rewrite (bind_pure _ _ _ _ (to_bytes_ok v s ltac:(lia))).
  inversion H as [? ? Hv|? ? Hl]; subst; [lia|].
  unfold bind. now rewrite (IH Hl).
Qed.

Lemma coerce_outcome (p : payload) (s : store) :
  coerce p s = mkOutcome (res (coerce p s)) s [].
Proof.
  destruct (coerce_pure p s) as [Hst Hevs].
  change (coerce p s)
    with (mkOutcome (res (coerce p s)) (st (coerce p s)) (evs (coerce p s))) at 1.
  now f_equal.
Qed.

Lemma _write_coerce_raises (self : AT24MAC) (a : Z) (p : payload) (e : exn)
      (s : store) :
  res (coerce p s) = Raise e -> _write self a p s = mkOutcome (Raise e) s [].
Proof.
  intros H. unfold _write, bind. rewrite (coerce_outcome p s), H. reflexivity.
Qed.

Lemma __setitem___payload (self : AT24MAC) (k : key) (p : payload)
      (d : list byte) (s : store) :
  res (coerce p s) = Ok d ->
  __setitem__ self k p s = __setitem__ self k (PBytes d) s.
Proof.
  intros H. destruct k as [a|start stop step|]; cbn [__setitem__].
  - now apply _write_payload.
  - destruct (slice_start_pure start s) as [Hst Hevs].
    unfold bind at 1 3. rewrite Hst.
    destruct (res (slice_start start s)); [|reflexivity].
    destruct (slice_stop_pure stop s) as [Hst' Hevs'].
    unfold bind. rewrite Hst'.
    destruct (res (slice_stop stop s)); [|reflexivity].
    now rewrite (_write_payload self a p d s H).
  - reflexivity.
Qed.

(** ** Every way [_read] and [_write] can end *)

Lemma to_bytes_beyond (a : Z) (s : store) :
  255 < a -> to_bytes a s = mkOutcome (Raise OverflowError) s [].
Proof.
  intros Ha. unfold to_bytes. destruct (Z.ltb_spec a 0); [lia|].
  destruct (Byte.of_N (Z.to_N a)) as [b|] eqn:E; [|reflexivity].
  apply Byte.to_of_N in E. pose proof (Byte.to_N_bounded b). lia.
Qed.

Lemma _read_zero_length (self : AT24MAC) (a : Z) (s : store) :
  0 <= a < 256 ->
  _read self a 0 s
  = mkOutcome (Raise IndexError) s
      [WriteThenReadInto (eeprom_device self) [address_byte a] 0].
Proof. intros Ha. now rewrite _read_ok by lia. Qed.

Lemma _read_past_last_address (self : AT24MAC) (a : Z) (s : store) :
  255 < a -> _read self a 0 s = mkOutcome (Raise OverflowError) s [] \/
             _read self a 0 s
             = mkOutcome (Raise (ValueError (GoBeyondLimit a 0))) s [].
Proof.
  intros Ha. unfold _read, _EEPROM_LENGTH.
  destruct (Z.ltb_spec 256 (0 + a)); [now right|left].
  unfold bind. rewrite bytearray_ok by lia. cbn [res st evs].
  now rewrite to_bytes_beyond by lia.
Qed.

(** How a call of [_read] ends, by its arguments. *)
Lemma _read_cases (self : AT24MAC) (a n : Z) (s : store) :
  (exists e, _read self a n s = mkOutcome (Raise e) s [] /\
             ~ (0 <= a /\ 1 <= n /\ a + n <= 256)) \/
  (_read self a n s
   = mkOutcome (Raise IndexError) s
       [WriteThenReadInto (eeprom_device self) [address_byte a] 0] /\ n = 0) \/
  (exists v,
     _read self a n s
     = mkOutcome (Ok v) s
         [WriteThenReadInto (eeprom_device self) [address_byte a] (Z.to_nat n)] /\
     0 <= a /\ 1 <= n /\ a + n <= 256).
Proof.
  destruct (Z.lt_ge_cases 256 (a + n)) as [Hbig|Hfit].
  { left. eexists. split; [now apply _read_beyond|lia]. }
  destruct (Z.lt_ge_cases n 0) as [Hneg|Hn].
  { left. eexists. split; [now apply _read_negative_length|lia]. }
  destruct (Z.lt_ge_cases a 0) as [Ha|Ha].
  { left. eexists. split; [now apply _read_negative_address|lia]. }
  destruct (Z.eq_dec n 0) as [->|Hn0].
  - destruct (Z.lt_ge_cases a 256).
    + right. left. split; [now apply _read_zero_length|reflexivity].
    + left. destruct (_read_past_last_address self a s ltac:(lia)) as [H'|H'];
        eexists; (split; [exact H'|lia]).
  - right. right.
    pose proof (_read_value self a n s Ha ltac:(lia) Hfit) as Hv.
    rewrite _read_ok in Hv |- * by lia. cbn [res] in Hv.
    eexists. split; [|lia]. f_equal. exact Hv.
Qed.

Lemma _write_beyond (self : AT24MAC) (a : Z) (d : list byte) (s : store) :
  256 < len d + a ->
  _write self a (PBytes d) s
  = mkOutcome (Raise (ValueError (GoBeyondLimit a (len d)))) s [].
Proof.
  intros H. unfold _write, coerce. rewrite bind_ret_l. unfold _EEPROM_LENGTH.
  destruct (Z.ltb_spec 256 (len d + a)); [reflexivity|lia].
Qed.

Lemma _write_page_raises (self : AT24MAC) (a : Z) (c : list byte) (e : exn)
      (evs0 : list event) (s : store) :
  _read self a (len c) s = mkOutcome (Raise e) s evs0 ->
  _write_page self a c s = mkOutcome (Raise e) s evs0.
Proof.
  intros H. unfold _write_page, _does_data_match, bind. now rewrite H.
Qed.

Lemma split_plan_head (a : Z) (d : list byte) :
  exists c plan, split_plan a d = (a, c) :: plan /\ len c <= len d /\
                 (d = [] -> c = []).
Proof.
  destruct d as [|b d].
  - exists [], []. repeat split; reflexivity.
  - pose proof (split_plan_tiles a (b :: d) ltac:(discriminate)) as Ht.
    destruct (split_plan a (b :: d)) as [|[a' c] plan]; cbn [tiles] in Ht;
      [discriminate|].
    destruct Ht as (-> & _ & Hfirst & _).
    exists c, plan. split; [reflexivity|]. split; [|discriminate].
    rewrite <- Hfirst. rewrite len_firstn. lia.
Qed.

(** How a call of [_write] with [bytes] ends, by its arguments. *)
Lemma _write_cases (self : AT24MAC) (a : Z) (d : list byte) (s : store) :
  (exists e, _write self a (PBytes d) s = mkOutcome (Raise e) s [] /\
             e <> IndexError /\
             ~ (0 <= a /\ 1 <= len d /\ a + len d <= 256)) \/
  (_write self a (PBytes d) s
   = mkOutcome (Raise IndexError) s
       [WriteThenReadInto (eeprom_device self) [address_byte a] 0] /\ d = []) \/
  (res (_write self a (PBytes d) s) = Ok tt /\
   0 <= a /\ 1 <= len d /\ a + len d <= 256).
Proof.
  destruct (Z.lt_ge_cases 256 (len d + a)) as [Hbig|Hfit].
  { left. exists (ValueError (GoBeyondLimit a (len d))).
    split; [now apply _write_beyond|]. split; [discriminate|lia]. }
  destruct (split_plan_head a d) as (c & plan & Hplan & Hc & Hnil).
  pose proof (len_nonneg c) as Hcnn.
  assert (Hfail : forall e evs0,
            _read self a (len c) s = mkOutcome (Raise e) s evs0 ->
            _write self a (PBytes d) s = mkOutcome (Raise e) s evs0).
  { intros e evs0 H. rewrite _write_split_plan, Hplan by lia.
    cbn [write_pages]. unfold bind.
    now rewrite (_write_page_raises self a c e evs0 s H). }
  destruct (Z.lt_ge_cases a 0) as [Ha|Ha].
  { left. exists OverflowError. split; [|split; [discriminate|lia]].
    apply Hfail. apply _read_negative_address; lia. }
  destruct d as [|b d].
  - rewrite (Hnil eq_refl) in Hfail. change (len []) with 0 in *.
    destruct (Z.lt_ge_cases a 256).
    + right. left. split; [|reflexivity].
      apply Hfail. now apply _read_zero_length.
    + left. destruct (_read_past_last_address self a s ltac:(lia)) as [H'|H'].
      * exists OverflowError.
        split; [apply Hfail; exact H'|split; [discriminate|lia]].
      * exists (ValueError (GoBeyondLimit a 0)).
        split; [apply Hfail; exact H'|split; [discriminate|lia]].
  - right. right.
    assert (Hlen : 1 <= len (b :: d)) by (apply len_pos; discriminate).
    split; [|lia]. apply _write_post; lia.
Qed.

(** X1: [_write] of a [bytes] payload succeeds exactly when the payload is not
    empty and its range lies within the array: [0 <= a], [1 <= len],
    [a + len <= 256]. *)
Theorem _write_succeeds_iff (self : AT24MAC) (a : Z) (d : list byte) (s : store) :
  res (_write self a (PBytes d) s) = Ok tt <->
  0 <= a /\ 1 <= len d /\ a + len d <= _EEPROM_LENGTH.
Proof.
  unfold _EEPROM_LENGTH. split.
  - intros H. destruct (_write_cases self a d s) as [(e & He & _)|[[He _]|[_ Hr]]];
      [rewrite He in H; discriminate | rewrite He in H; discriminate | exact Hr].
  - intros (Ha & Hlen & Hfit). now apply _write_post.
Qed.

Lemma _write_succeeds_iff_witness :
  res (_write board 10 (PBytes twenty) blank) = Ok tt.
Proof.
  apply (proj2 (_write_succeeds_iff board 10 twenty blank)).
  repeat split; [lia | vm_compute; discriminate | vm_compute; discriminate].
Defined.

(** X2: [_read] succeeds exactly when the length is at least one and the range
    lies within the array: [0 <= a], [1 <= n], [a + n <= 256]. *)
Theorem _read_succeeds_iff (self : AT24MAC) (a n : Z) (s : store) :
  (exists v, res (_read self a n s) = Ok v) <->
  0 <= a /\ 1 <= n /\ a + n <= _EEPROM_LENGTH.
Proof.
  unfold _EEPROM_LENGTH. split.
  - intros [v H].
    destruct (_read_cases self a n s) as [(e & He & _)|[[He _]|(_ & _ & Hr)]];
      [rewrite He in H; discriminate | rewrite He in H; discriminate | exact Hr].
  - intros (Ha & Hn & Hfit). eexists. now apply _read_value.
Qed.

Lemma _read_succeeds_iff_witness :
  exists v, res (_read board 10 20 blank) = Ok v.
Proof.
  apply (proj2 (_read_succeeds_iff board 10 20 blank)).
  unfold _EEPROM_LENGTH. lia.
Defined.

(** ** Reads *)

Lemma _read_changes_nothing (self : AT24MAC) (a n : Z) (s : store) :
  st (_read self a n s) = s /\
  (length (evs (_read self a n s)) <= 1)%nat /\
  forallb is_comparison_read (evs (_read self a n s)) = true.
Proof.
  destruct (_read_cases self a n s) as [(e & He & _)|[[He _]|(v & He & _)]];
    rewrite He; cbn; repeat split; lia.
Qed.

Lemma bind_pure_cases {A B} (m : M A) (f : A -> M B) (s : store) :
  st (m s) = s -> evs (m s) = [] ->
  (exists a, bind m f s = f a s) \/
  (exists e, bind m f s = mkOutcome (Raise e) s []).
Proof.
  intros Hst Hevs. unfold bind. rewrite Hst, Hevs.
  destruct (res (m s)) as [a|e]; [left; now exists a | right; now exists e].
Qed.

Lemma slice_bounds_cases {B} (start stop : option Z) (f : Z -> Z -> M B)
      (s : store) :
  (exists v w,
     bind (slice_start start) (fun v => bind (slice_stop stop) (fun w => f v w)) s
     = f v w s) \/
  (exists e,
     bind (slice_start start) (fun v => bind (slice_stop stop) (fun w => f v w)) s
     = mkOutcome (Raise e) s []).
Proof.
  destruct (slice_start_pure start s) as [Hst Hevs].
  destruct (bind_pure_cases (slice_start start)
              (fun v => bind (slice_stop stop) (fun w => f v w)) s Hst Hevs)
    as [[v ->]|[e ->]]; [|right; now exists e].
  destruct (slice_stop_pure stop s) as [Hst' Hevs'].
  destruct (bind_pure_cases (slice_stop stop) (fun w => f v w) s Hst' Hevs')
    as [[w ->]|[e ->]]; [left; now exists v, w | right; now exists e].
Qed.

(** X3: A read through [__getitem__], whatever the key and however it ends,
    leaves every memory on the bus as it was, and issues at most one bus
    transaction, a write-then-read. *)
Theorem reads_change_nothing (self : AT24MAC) (k : key) (s : store) :
  st (__getitem__ self k s) = s /\
  (length (evs (__getitem__ self k s)) <= 1)%nat /\
  forallb is_comparison_read (evs (__getitem__ self k s)) = true.
Proof.
  destruct k as [a|start stop step|]; cbn [__getitem__].
  - apply _read_changes_nothing.
  - destruct (slice_bounds_cases start stop
                (fun v w => _read self v (w - v)) s) as [(v & w & ->)|[e ->]].
    + apply _read_changes_nothing.
    + cbn. repeat split. lia.
  - cbn. repeat split. lia.
Qed.

(** X4: A ranged read of at least two cells returns, in one write-then-read
    transaction, exactly the cells [start .. stop-1] in order. *)
Theorem ranged_read_returns_the_cells (self : AT24MAC) (s : store)
        (start stop step : option Z) :
  accepted start -> accepted stop ->
  2 <= bound_or _EEPROM_LENGTH stop - bound_or 0 start ->
  exists data_bytes,
    __getitem__ self (KSlice start stop step) s
    = mkOutcome (Ok (VBytes data_bytes)) s
        [WriteThenReadInto (eeprom_device self) [address_byte (bound_or 0 start)]
           (Z.to_nat (bound_or _EEPROM_LENGTH stop - bound_or 0 start))] /\
    len data_bytes = bound_or _EEPROM_LENGTH stop - bound_or 0 start /\
    holds (s (eeprom_device self)) (bound_or 0 start) data_bytes.
Proof.
  intros Hstart Hstop Hn.
  assert (H0 : 0 <= bound_or 0 start < 256)
    by (destruct start; [exact Hstart | cbn; lia]).
  assert (H1 : 0 <= bound_or _EEPROM_LENGTH stop <= 256)
    by (destruct stop as [v|]; [unfold accepted, _EEPROM_LENGTH in Hstop; cbn; lia
                               | cbn; unfold _EEPROM_LENGTH; lia]).
  rewrite __getitem___accepted by assumption.
  remember (bound_or 0 start) as a eqn:Ea.
  remember (bound_or _EEPROM_LENGTH stop - a) as n eqn:En.
  assert (Hfit : a + n <= 256) by lia. clear Ea En H1.
  rewrite _read_ok by lia.
  destruct (Z.ltb_spec 1 n); [|lia].
  exists (sequential_read (s (eeprom_device self)) a (Z.to_nat n)).
  split; [reflexivity|].
  assert (Hlen : len (sequential_read (s (eeprom_device self)) a (Z.to_nat n)) = n)
    by (unfold len; rewrite sequential_read_length; lia).
  split; [exact Hlen|].
  apply holds_read; [lia|lia|].
  now rewrite sequential_read_length.
Qed.

Lemma ranged_read_returns_the_cells_witness :
  exists data_bytes,
    res (__getitem__ board (KSlice (Some 100) (Some 105) None) blank)
    = Ok (VBytes data_bytes) /\
    len data_bytes = 5.
Proof.
  destruct (ranged_read_returns_the_cells board blank (Some 100) (Some 105) None)
    as (data_bytes & Hr & Hl & _);
    [unfold accepted, _EEPROM_LENGTH; lia | unfold accepted, _EEPROM_LENGTH; lia
     | cbn; lia |].
  exists data_bytes. split; [now rewrite Hr | exact Hl].
Defined.

(** ** Integer and list payloads *)

Lemma coerce_int (v : Z) (s : store) :
  in_byte_range v -> coerce (PInt v) s = mkOutcome (Ok [address_byte v]) s [].
Proof.
  unfold in_byte_range. intros Hv. cbn [coerce].
  destruct (Z.leb_spec 0 v); [|lia]. destruct (Z.leb_spec v 255); [|lia].
  cbn [andb]. apply to_bytes_ok. lia.
Qed.

Lemma byte_values_of_bytes (l : list Z) :
  Forall in_byte_range l -> map byte_value (map address_byte l) = l.
Proof.
  induction 1 as [|v l Hv _ IH]; [reflexivity|].
  cbn [map]. rewrite IH. f_equal.
  apply address_byte_spec. unfold in_byte_range in Hv. lia.
Qed.

(** X5: Assigning an integer [v] of 0..255 to the item at an integer address of
    0..255 succeeds, and reading that item then gives the byte of value
    [v]. *)
Theorem int_item_roundtrip (self : AT24MAC) (s : store) (a v : Z) :
  0 <= a < _EEPROM_LENGTH -> in_byte_range v ->
  res (__setitem__ self (KInt a) (PInt v) s) = Ok tt /\
  res (__getitem__ self (KInt a) (st (__setitem__ self (KInt a) (PInt v) s)))
  = Ok (VInt (address_byte v)) /\
  byte_value (address_byte v) = v.
Proof.
  unfold _EEPROM_LENGTH. intros Ha Hv. cbn [__setitem__ __getitem__].
  rewrite (_write_payload self a (PInt v) [address_byte v] s)
    by now rewrite coerce_int.
  destruct (_write_then__read self a [address_byte v] s)
    as [Hw Hr]; [lia | change (len [address_byte v]) with 1; lia
                 | change (len [address_byte v]) with 1; lia |].
  split; [exact Hw|]. split; [exact Hr|].
  apply address_byte_spec. unfold in_byte_range in Hv. lia.
Qed.

Lemma int_item_roundtrip_witness :
  res (__getitem__ board (KInt 0) (st (__setitem__ board (KInt 0) (PInt 76) blank)))
  = Ok (VInt x4c).
Proof.
  destruct (int_item_roundtrip board blank 0 76) as (_ & Hr & _);
    [unfold _EEPROM_LENGTH; lia | unfold in_byte_range; lia |].
  exact Hr.
Defined.

(** X6: Assigning a list of integers, each of 0..255, is the same operation as
    assigning the [bytes] of these values, whatever the key. *)
Theorem list_payload_is_its_bytes (self : AT24MAC) (k : key) (l : list Z)
        (s : store) :
  Forall in_byte_range l ->
  __setitem__ self k (PList l) s
  = __setitem__ self k (PBytes (map address_byte l)) s /\
  map byte_value (map address_byte l) = l.
Proof.
  intros Hl. split; [|now apply byte_values_of_bytes].
  apply __setitem___payload. cbn [coerce]. now rewrite bytearray_of_ok.
Qed.

Lemma list_payload_is_its_bytes_witness :
  __setitem__ board (KInt 100) (PList [6; 7; 8; 9; 10]) blank
  = __setitem__ board (KInt 100) (PBytes [x06; x07; x08; x09; x0a]) blank.
Proof.
  destruct (list_payload_is_its_bytes board (KInt 100) [6; 7; 8; 9; 10] blank)
    as [H _]; [|exact H].
  repeat constructor; unfold in_byte_range; lia.
Defined.

(** X7: A list of at least two integers of 0..255 assigned at an integer
    address is read back, as the bytes of these values, by the slice that
    starts there and spans its length. *)
Theorem list_item_roundtrip (self : AT24MAC) (s : store) (a : Z)
        (stop step : option Z) (l : list Z) :
  0 <= a -> Forall in_byte_range l -> (2 <= length l)%nat ->
  accepted stop -> bound_or _EEPROM_LENGTH stop = a + Z.of_nat (length l) ->
  res (__setitem__ self (KInt a) (PList l) s) = Ok tt /\
  res (__getitem__ self (KSlice (Some a) stop step)
         (st (__setitem__ self (KInt a) (PList l) s)))
  = Ok (VBytes (map address_byte l)).
Proof.
  intros Ha Hl Hlen Hstop Hend.
  assert (Hb : 0 <= bound_or _EEPROM_LENGTH stop <= 256)
    by (destruct stop as [v|]; [unfold accepted, _EEPROM_LENGTH in Hstop; cbn; lia
                               | cbn; unfold _EEPROM_LENGTH; lia]).
  rewrite (__setitem___payload self (KInt a) (PList l) (map address_byte l) s)
    by (cbn [coerce]; now rewrite bytearray_of_ok).
  cbn [__setitem__].
  assert (Hd : len (map address_byte l) = Z.of_nat (length l))
    by (unfold len; now rewrite length_map).
  destruct (_write_then__read self a (map address_byte l) s) as [Hw Hr];
    [lia | lia | lia |].
  split; [exact Hw|].
  rewrite __getitem___accepted by (try assumption; unfold accepted, _EEPROM_LENGTH; lia).
  cbn [bound_or]. rewrite Hend.
  replace (a + Z.of_nat (length l) - a) with (len (map address_byte l)) by lia.
  rewrite Hr.
  destruct l as [|v0 [|v1 l']]; cbn [length] in Hlen; [lia|lia|reflexivity].
Qed.

Lemma list_item_roundtrip_witness :
  res (__getitem__ board (KSlice (Some 100) (Some 105) None)
         (st (__setitem__ board (KInt 100) (PList [6; 7; 8; 9; 10]) blank)))
  = Ok (VBytes [x06; x07; x08; x09; x0a]).
Proof.
  destruct (list_item_roundtrip board blank 100 (Some 105) None [6; 7; 8; 9; 10])
    as [_ H];
    [lia | repeat constructor; unfold in_byte_range; lia | cbn; lia
     | unfold accepted, _EEPROM_LENGTH; lia | reflexivity | exact H].
Defined.

(** X8: A payload that cannot be turned into bytes is refused before any bus
    transaction: an integer outside 0..255 with the [TypeError] of [len],
    a list holding such an integer with the [ValueError] of [bytearray]. *)
Theorem unusable_payload_is_refused (self : AT24MAC) (a : Z) (s : store) :
  (forall v, ~ in_byte_range v ->
     _write self a (PInt v) s = mkOutcome (Raise TypeError) s []) /\
  (forall l, Exists (fun v => ~ in_byte_range v) l ->
     _write self a (PList l) s = mkOutcome (Raise (ValueError ByteRange)) s []).
Proof.
  split.
  - intros v Hv. apply _write_coerce_raises. cbn [coerce].
    unfold in_byte_range in Hv.
    destruct (Z.leb_spec 0 v); [|reflexivity].
    destruct (Z.leb_spec v 255); [lia|reflexivity].
  - intros l Hl. apply _write_coerce_raises. cbn [coerce].
    now rewrite bytearray_of_bad.
Qed.

Lemma unusable_payload_is_refused_witness :
  _write board 0 (PInt 256) blank = mkOutcome (Raise TypeError) blank [].
Proof.
  apply (proj1 (unusable_payload_is_refused board 0 blank)).
  unfold in_byte_range. lia.
Defined.

(** ** Writes that fail *)

Lemma _write_failure (self : AT24MAC) (a : Z) (p : payload) (e : exn) (s : store) :
  res (_write self a p s) = Raise e ->
  st (_write self a p s) = s /\
  filter is_write (evs (_write self a p s)) = [] /\
  (e <> IndexError -> evs (_write self a p s) = []).
Proof.
  intros H. destruct (res (coerce p s)) as [d|e'] eqn:Ec.
  - rewrite (_write_payload self a p d s Ec) in *.
    destruct (_write_cases self a d s) as [(e0 & He & _)|[[He _]|[Hok _]]].
    + rewrite He. now repeat split.
    + rewrite He in H |- *. cbn [res] in H. injection H as <-.
      repeat split. intros Hne. now contradiction Hne.
    + rewrite Hok in H. discriminate.
  - rewrite (_write_coerce_raises self a p e' s Ec). now repeat split.
Qed.



(** X10: A payload that ends exactly at the last cell is written; with one more
    byte the whole payload is refused, with the driver's [ValueError] and
    no bus transaction, also the part that would have fitted. *)
Theorem write_up_to_the_last_cell (self : AT24MAC) (s : store) (a : Z)
        (d : list byte) (b : byte) :
  0 <= a -> 1 <= len d -> a + len d = _EEPROM_LENGTH ->
  res (_write self a (PBytes d) s) = Ok tt /\
  holds (st (_write self a (PBytes d) s) (eeprom_device self)) a d /\
  _write self a (PBytes (d ++ [b])) s
  = mkOutcome (Raise (ValueError (GoBeyondLimit a (len d + 1)))) s [].
Proof.
  unfold _EEPROM_LENGTH. intros Ha Hlen Hend.
  destruct (_write_post self a d s Ha Hlen ltac:(lia)) as (Hres & Hholds & _).
  split; [exact Hres|]. split; [exact Hholds|].
  rewrite _write_beyond by (rewrite len_app; change (len [b]) with 1; lia).
  now rewrite len_app.
Qed.

Lemma write_up_to_the_last_cell_witness :
  res (_write board 236 (PBytes twenty) blank) = Ok tt /\
  evs (_write board 236 (PBytes (twenty ++ [x00])) blank) = [].
Proof.
  destruct (write_up_to_the_last_cell board blank 236 twenty x00)
    as (Hres & _ & Hrej);
    [lia | vm_compute; discriminate | reflexivity |].
  split; [exact Hres | now rewrite Hrej].
Defined.

(** X11: The empty payload and the zero-length read: at an address of 0..255
    both raise [IndexError] after one write-then-read of no bytes, and
    change nothing. *)
Theorem nothing_to_transfer_raises (self : AT24MAC) (s : store) (a : Z) :
  0 <= a < _EEPROM_LENGTH ->
  _write self a (PBytes []) s
  = mkOutcome (Raise IndexError) s
      [WriteThenReadInto (eeprom_device self) [address_byte a] 0] /\
  _read self a 0 s
  = mkOutcome (Raise IndexError) s
      [WriteThenReadInto (eeprom_device self) [address_byte a] 0] /\
  __getitem__ self (KSlice (Some a) (Some a) None) s
  = mkOutcome (Raise IndexError) s
      [WriteThenReadInto (eeprom_device self) [address_byte a] 0].
Proof.
  unfold _EEPROM_LENGTH. intros Ha.
  split; [|split].
  - rewrite _write_split_plan by (change (len []) with 0; lia).
    change (split_plan a []) with [(a, @nil byte)].
    cbn [write_pages]. unfold bind.
    now rewrite (_write_page_raises self a [] IndexError _ s
                   (_read_zero_length self a s Ha)).
  - now apply _read_zero_length.
  - rewrite __getitem___slice by lia. rewrite Z.sub_diag.
    now apply _read_zero_length.
Qed.

Lemma nothing_to_transfer_raises_witness :
  res (_write board 5 (PBytes []) blank) = Raise IndexError /\
  st (_write board 5 (PBytes []) blank) = blank.
Proof.
  destruct (nothing_to_transfer_raises board blank 5) as (Hw & _);
    [unfold _EEPROM_LENGTH; lia|].
  now rewrite Hw.
Defined.

(** ** Writes side by side *)

Lemma _read_of_holds (self : AT24MAC) (a : Z) (d : list byte) (s : store) :
  0 <= a -> 1 <= len d -> a + len d <= 256 ->
  holds (s (eeprom_device self)) a d ->
  res (_read self a (len d) s)
  = Ok (match d with
        | [item] => VInt item
        | _ => VBytes d
        end).
Proof.
  intros Ha Hlen Hfit Hholds.
  rewrite _read_value by lia.
  apply holds_read in Hholds; [|lia|lia].
  replace (Z.to_nat (len d)) with (length d) by (unfold len; lia).
  rewrite Hholds. now destruct d as [|b0 [|b1 d']].
Qed.

(** X12: A write to one range leaves what an earlier write put in a disjoint
    range: reading the first range after both writes gives the first
    payload. *)
Theorem disjoint_writes_keep_each_other (self : AT24MAC) (s : store)
        (a b : Z) (d1 d2 : list byte) :
  0 <= a -> 1 <= len d1 -> a + len d1 <= _EEPROM_LENGTH ->
  0 <= b -> 1 <= len d2 -> b + len d2 <= _EEPROM_LENGTH ->
  a + len d1 <= b \/ b + len d2 <= a ->
  res (_write self b (PBytes d2) (st (_write self a (PBytes d1) s))) = Ok tt /\
  res (_read self a (len d1)
         (st (_write self b (PBytes d2) (st (_write self a (PBytes d1) s)))))
  = Ok (match d1 with
        | [item] => VInt item
        | _ => VBytes d1
        end) /\
  res (_read self b (len d2)
         (st (_write self b (PBytes d2) (st (_write self a (PBytes d1) s)))))
  = Ok (match d2 with
        | [item] => VInt item
        | _ => VBytes d2
        end).
Proof.
  unfold _EEPROM_LENGTH. intros Ha Hl1 Hf1 Hb Hl2 Hf2 Hdisj.
  destruct (_write_post self a d1 s Ha Hl1 Hf1) as (_ & Hh1 & _).
  remember (st (_write self a (PBytes d1) s)) as s1 eqn:Es1. clear Es1.
  destruct (_write_post self b d2 s1 Hb Hl2 Hf2) as (Hres & Hh2 & Hframe & _).
  split; [exact Hres|]. split.
  - apply _read_of_holds; try assumption.
    intros i Hi. rewrite Hframe by (unfold len in *; lia). now apply Hh1.
  - now apply _read_of_holds.
Qed.

Lemma disjoint_writes_keep_each_other_witness :
  res (_read board 10 (len twenty)
         (st (_write board 40 (PBytes twenty)
                (st (_write board 10 (PBytes twenty) blank)))))
  = Ok (VBytes twenty).
Proof.
  destruct (disjoint_writes_keep_each_other board blank 10 40 twenty twenty)
    as (_ & H & _);
    [lia | vm_compute; discriminate | vm_compute; discriminate
     | lia | vm_compute; discriminate | vm_compute; discriminate
     | left; vm_compute; discriminate | exact H].
Defined.

(** ** How many page writes *)

Lemma split_plan_length (a : Z) (d : list byte) :
  0 <= a -> 1 <= len d ->
  Z.of_nat (length (split_plan a d)) = pages_touched a (len d).
Proof.
  intros Ha Hlen. unfold pages_touched, _PAGE_SIZE.
  destruct (Z.le_gt_cases (len d) 1) as [Hone|Hlong].
  - unfold split_plan. destruct (Z.ltb_spec 1 (len d)); [lia|].
    cbn [length]. replace (len d) with 1 by lia.
    replace (a + 1 - 1) with a by lia. lia.
  - rewrite split_plan_long by assumption.
    rewrite !length_app, !length_map, length_seq.
    pose proof (leading_bytes_range a) as Hoff.
    pose proof (leading_bytes_fit a) as Hfit.
    assert (Hzero : leading_bytes a = 0 -> a mod 16 = 0).
    { unfold leading_bytes, _PAGE_SIZE.
      pose proof (Z.mod_pos_bound a 16 ltac:(lia)).
      destruct (Z.eqb_spec (16 - a mod 16) 16); lia. }
    remember (leading_bytes a) as off eqn:Eoff. clear Eoff.
    remember (len d) as L eqn:EL. clear EL.
    destruct (Z.ltb_spec 0 off), (Z.ltb_spec 0 (L - (off + 16 * (L / 16))));
      cbn [length]; Z.div_mod_to_equations; lia.
Qed.

Lemma page_events_counts (self : AT24MAC) (s : store)
      (plan : list (Z * list byte)) :
  length (filter is_comparison_read (flat_map (page_events self s) plan))
  = length plan /\
  (length (filter is_write (flat_map (page_events self s) plan))
   <= length plan)%nat /\
  length (filter is_sleep (flat_map (page_events self s) plan))
  = length (filter is_write (flat_map (page_events self s) plan)).
Proof.
  induction plan as [|c plan (IH1 & IH2 & IH3)]; [now repeat split|].
  cbn [flat_map]. rewrite !filter_app, !length_app, IH1, IH3.
  remember (flat_map (page_events self s) plan) as rest eqn:E. clear E.
  unfold page_events.
  destruct (already_holds s _ (fst c) (snd c)); cbn; repeat split; lia.
Qed.

(** X13: A write looks at each page its range lies in once: the number of page
    writes, each starting with its comparison read, is the number of pages
    from the first cell to the last; there are at most as many [Write]
    transactions, and as many settle delays as [Write]s. *)
Theorem one_page_write_per_page (self : AT24MAC) (s : store) (a : Z)
        (d : list byte) :
  0 <= a -> 1 <= len d -> a + len d <= _EEPROM_LENGTH ->
  Z.of_nat (length (filter is_comparison_read (evs (_write self a (PBytes d) s))))
  = pages_touched a (len d) /\
  Z.of_nat (length (filter is_write (evs (_write self a (PBytes d) s))))
  <= pages_touched a (len d) /\
  length (filter is_sleep (evs (_write self a (PBytes d) s)))
  = length (filter is_write (evs (_write self a (PBytes d) s))).
Proof.
  unfold _EEPROM_LENGTH. intros Ha Hlen Hfit.
  rewrite _write_events by assumption.
  destruct (page_events_counts self s (split_plan a d)) as (H1 & H2 & H3).
  pose proof (split_plan_length a d Ha Hlen) as Hn.
  rewrite H1. repeat split; [exact Hn | lia | exact H3].
Qed.

Lemma one_page_write_per_page_witness :
  Z.of_nat (length (filter is_comparison_read
                      (evs (_write board 10 (PBytes twenty) blank))))
  = pages_touched 10 (len twenty).
Proof.
  destruct (one_page_write_per_page board blank 10 twenty) as (H & _);
    [lia | vm_compute; discriminate | vm_compute; discriminate | exact H].
Defined.

Lemma settled_page_events (self : AT24MAC) (s : store)
      (plan : list (Z * list byte)) :
  settled (flat_map (page_events self s) plan).
Proof.
  induction plan as [|c plan IH]; [exact I|].
  cbn [flat_map].
  remember (flat_map (page_events self s) plan) as rest eqn:E. clear E.
  unfold page_events.
  destruct (already_holds s _ (fst c) (snd c)); cbn; auto.
Qed.

(** X14: In a write, every [Write] transaction is followed at once by the
    settle delay of [_WRITE_TIME], before the next transaction. *)
Theorem every_write_is_settled (self : AT24MAC) (s : store) (a : Z)
        (d : list byte) :
  0 <= a -> 1 <= len d -> a + len d <= _EEPROM_LENGTH ->
  settled (evs (_write self a (PBytes d) s)).
Proof.
  unfold _EEPROM_LENGTH. intros Ha Hlen Hfit.
  rewrite _write_events by assumption. apply settled_page_events.
Qed.

Lemma every_write_is_settled_witness :
  settled (evs (_write board 10 (PBytes twenty) blank)).
Proof.
  apply (every_write_is_settled board blank 10 twenty);
    [lia | vm_compute; discriminate | vm_compute; discriminate].
Defined.

(** ** The rest of the bus *)

Lemma _write_elsewhere (self : AT24MAC) (a : Z) (p : payload) (s : store) (d : Z) :
  d <> eeprom_device self -> st (_write self a p s) d = s d.
Proof.
  intros Hd. destruct (res (_write self a p s)) as [[]|e] eqn:Hres.
  - destruct (res (coerce p s)) as [d0|e'] eqn:Ec.
    + rewrite (_write_payload self a p d0 s Ec) in *.
      destruct (_write_cases self a d0 s) as [(e0 & He & _)|[[He _]|[_ Hr]]];
        [rewrite He in Hres; discriminate | rewrite He in Hres; discriminate |].
      destruct Hr as (Ha & Hlen & Hfit).
      now apply (_write_post self a d0 s Ha Hlen Hfit).
    + rewrite (_write_coerce_raises self a p e' s Ec) in Hres. discriminate.
  - destruct (_write_failure self a p e s Hres) as [-> _]. reflexivity.
Qed.

Lemma __setitem___elsewhere (self : AT24MAC) (k : key) (p : payload) (s : store)
      (d : Z) :
  d <> eeprom_device self -> st (__setitem__ self k p s) d = s d.
Proof.
  intros Hd. destruct k as [a|start stop step|]; cbn [__setitem__].
  - now apply _write_elsewhere.
  - destruct (slice_bounds_cases start stop (fun v w => _write self v p) s)
      as [(v & w & ->)|[e ->]]; [now apply _write_elsewhere | reflexivity].
  - reflexivity.
Qed.

Lemma store_after_elsewhere (self : AT24MAC) (ops : list (key * payload)) :
  forall (s : store) (d : Z),
    d <> eeprom_device self -> store_after self ops s d = s d.
Proof.
  induction ops as [|[k p] ops IH]; intros s d Hd; [reflexivity|].
  cbn [store_after]. rewrite IH by assumption. now apply __setitem___elsewhere.
Qed.

(** X15: An item assignment, with whatever key and payload and however it ends,
    leaves the memory behind every other bus address as it was. *)
Theorem writes_stay_on_the_eeprom (self : AT24MAC) (k : key) (p : payload)
        (s : store) (d : Z) :
  d <> eeprom_device self -> st (__setitem__ self k p s) d = s d.
Proof. apply __setitem___elsewhere. Qed.

Lemma writes_stay_on_the_eeprom_witness :
  st (__setitem__ board (KInt 10) (PBytes twenty) blank) 0x5C = blank 0x5C.
Proof.
  apply (writes_stay_on_the_eeprom board (KInt 10) (PBytes twenty) blank 0x5C).
  discriminate.
Defined.


Lemma read_mac_address_run (self : AT24MAC) (s : store) :
  read_mac_address self s
  = mkOutcome (Ok (sequential_read (s (eui_device self)) 0x9A 6)) s
      [WriteThenReadInto (eui_device self) [x9a] 6].
Proof. reflexivity. Qed.

Lemma read_serial_number_run (self : AT24MAC) (s : store) :
  read_serial_number self s
  = mkOutcome (Ok (from_bytes (sequential_read (s (eui_device self)) 0x80 16))) s
      [WriteThenReadInto (eui_device self) [x80] 16].
Proof. reflexivity. Qed.

Lemma __init___run (address_pins : Z) (s : store) :
  __init__ address_pins s
  = mkOutcome
      (Ok (mkAT24MAC (Z.lor 0x50 address_pins) (Z.lor 0x58 address_pins)
             (sequential_read (s (Z.lor 0x58 address_pins)) 0x9A 6)
             (from_bytes (sequential_read (s (Z.lor 0x58 address_pins)) 0x80 16))))
      s
      [Probe (Z.lor 0x50 address_pins);
       Probe (Z.lor 0x58 address_pins);
       WriteThenReadInto (Z.lor 0x58 address_pins) [x9a] 6;
       WriteThenReadInto (Z.lor 0x58 address_pins) [x80] 16].
Proof. reflexivity. Qed.

(** X16: The identity read at construction stays the part's identity: after any
    sequence of item assignments through the object, reading the hardware
    address and the serial number again gives the values kept in [mac] and
    [serial_number]. *)
Theorem identity_survives_writes (address_pins : Z) (s : store)
        (ops : list (key * payload)) :
  0 <= address_pins < 8 ->
  exists self,
    res (__init__ address_pins s) = Ok self /\
    res (read_mac_address self (store_after self ops s)) = Ok (mac self) /\
    res (read_serial_number self (store_after self ops s))
    = Ok (serial_number self).
Proof.
  intros Hpins. rewrite __init___run. cbn [res].
  eexists. split; [reflexivity|].
  rewrite read_mac_address_run, read_serial_number_run.
  cbn [res eui_device mac serial_number].
  rewrite store_after_elsewhere; [split; reflexivity|].
  cbn [eeprom_device]. intros E. now apply (devices_differ address_pins Hpins).
Qed.


Lemma identity_survives_writes_witness :
  exists self,
    res (__init__ 4 blank) = Ok self /\
    res (read_mac_address self
           (store_after self [(KInt 10, PBytes twenty); (KInt 0, PInt 76)] blank))
    = Ok (mac self).
Proof.
  destruct (identity_survives_writes 4 blank
              [(KInt 10, PBytes twenty); (KInt 0, PInt 76)])
    as (self & Hi & Hm & _); [lia|].
  exists self. split; [exact Hi | exact Hm].
Defined.

(** ** The serial number *)





(** ** Item addresses and [__len__] *)

(** X18: The integer addresses at which an item can be read, and a byte value
    assigned, are exactly [0 .. len(eeprom) - 1]. *)
Theorem item_addresses_are_below_len (self : AT24MAC) (a v : Z) (s : store) :
  in_byte_range v ->
  ((exists x, res (__getitem__ self (KInt a) s) = Ok x) <->
   0 <= a < __len__ self) /\
  (res (__setitem__ self (KInt a) (PInt v) s) = Ok tt <->
   0 <= a < __len__ self).
Proof.
  intros Hv. unfold __len__, _EEPROM_LENGTH. cbn [__getitem__ __setitem__].
  rewrite (_write_payload self a (PInt v) [address_byte v] s)
    by now rewrite coerce_int.
  split; split.
  - intros [x H].
    destruct (_read_cases self a 1 s) as [(e & He & _)|[[_ He]|(_ & _ & Hr)]];
      [rewrite He in H; discriminate | discriminate | lia].
  - intros Ha. eexists. apply _read_value; lia.
  - intros H.
    destruct (_write_cases self a [address_byte v] s)
      as [(e & He & _)|[[_ He]|[_ Hr]]];
      [rewrite He in H; discriminate | discriminate |].
    change (len [address_byte v]) with 1 in Hr. lia.
  - intros Ha. apply _write_post; [lia| |]; change (len [address_byte v]) with 1; lia.
Qed.

Lemma item_addresses_are_below_len_witness :
  res (__setitem__ board (KInt 255) (PInt 76) blank) = Ok tt.
Proof.
  destruct (item_addresses_are_below_len board 255 76 blank) as [_ [_ H]];
    [unfold in_byte_range; lia|].
  apply H. unfold __len__, _EEPROM_LENGTH. lia.
Defined.
